(** * Dependency-aware parallel sprint planner

    Shallow embedding of [ParallelSprintPlanningAgent]
    (src/src/agents/parallel_sprint_planner.py) and the properties of its
    topological leveler, critical-path search, resource allocator, duration
    estimator and execution planner.

    Conventions of the embedding.
    - Python [int] is [Z] (or [nat] for lengths and indices); Python [float]
      is idealised as an exact rational [Q]: rounding of IEEE doubles is not
      modelled.  [int(x)] on a float is truncation towards zero, [//] on
      ints with a positive divisor is [Z.div].
    - A Python [dict] that is iterated is an insertion-ordered association
      list with unique keys ([dict_set] overwrites in place, or appends);
      the two [defaultdict]s of the leveler, which are only indexed, are
      [gmap]s read with their default.  A [set] is a [gset].
    - Feature ids are strings; [None] is the id of a feature that has
      neither an ['id'] nor a ['name'] entry.
    - [while] loops and the recursive search run on fuel; [None] means the
      fuel ran out, and the totality lemmas show that it never does.  The
      source has no [raise]: there is no exception outcome to model. *)

From Stdlib Require Import ZArith QArith Qround Lia Lqa.
From stdpp Require Import gmap strings list pretty.

Close Scope Q_scope.
Open Scope nat_scope.

Abbreviation key := (option string).

(** ** Insertion-ordered dictionaries *)

Abbreviation dict K V := (list (K * V)).

Section Dict.
Context {K V : Type} `{EqDecision K}.

(** [d.get(k)] *)
Fixpoint dict_get (d : dict K V) (k : K) : option V :=
  match d with
  | [] => None
  | (k', v) :: d' => if decide (k' = k) then Some v else dict_get d' k
  end.

(** [d[k] = v]: an existing key keeps its position, a new one goes last. *)
Fixpoint dict_set (k : K) (v : V) (d : dict K V) : dict K V :=
  match d with
  | [] => [(k, v)]
  | (k', v') :: d' =>
      if decide (k' = k) then (k', v) :: d' else (k', v') :: dict_set k v d'
  end.

Definition dict_keys (d : dict K V) : list K := d.*1.
End Dict.

(** Monadic left fold, for loops whose body may run out of fuel. *)
Fixpoint foldM_opt {A B : Type} (f : B → A → option B) (b : B) (l : list A)
  : option B :=
  match l with
  | [] => Some b
  | x :: l' => match f b x with Some b' => foldM_opt f b' l' | None => None end
  end.

(** ** Data *)

(** A feature as submitted: every entry of the Python dict may be absent. *)
Record feature := Feature {
  f_id : option string;
  f_name : option string;
  f_complexity : option string;
  f_priority : option string;
  f_effort : option Q;
  f_dependencies : option (list key)
}.

(** An entry of [self.dependency_graph]. *)
Record node := Node {
  dependencies : list key;
  complexity : string;
  priority : string;
  estimated_effort : Q;
  feature_of : feature
}.

(** An entry of the allocation dict; ['processes'] and ['teams'] are added
    by the second loop of [_allocate_resources], and the fallbacks [{}] and
    [{'teams': 1}] have no ['complexity'] or ['features']. *)
Record alloc_entry := AllocEntry {
  a_complexity : option Q;
  a_features : option (list key);
  a_processes : option Z;
  a_teams : option Z
}.

(** The attributes of the agent that its methods read or write.
    [stories_per_sprint], [parallel_tracks] and [sequential_tracks] are
    never used after [__init__]; [resource_allocation] is read by
    [_estimate_duration] and assigned nowhere. *)
Record planner := Planner {
  max_processes : Z;
  dependency_graph : dict key node;
  resource_allocation : dict string alloc_entry
}.

(** [self.agents_per_team] is set to 16 in [__init__] and never reassigned. *)
Definition agents_per_team : Z := 16.
Definition max_teams (p : planner) : Z := (max_processes p / agents_per_team)%Z.

Definition __init__ (max_processes : Z) : planner :=
  {| max_processes := max_processes;
     dependency_graph := [];
     resource_allocation := [] |}.

Record analysis := Analysis {
  total_features : nat;
  an_dependency_graph : dict key node;
  independent_features : list key;
  dependent_features : list key;
  critical_path : list key;
  parallelism_score : Q
}.

Record track := Track {
  t_id : string;
  t_type : string;
  t_features : list key;
  t_level : nat;
  t_can_parallel : bool
}.

Record plan_step := PlanStep {
  s_step : nat;
  s_track_id : string;
  s_type : string;
  s_features : list key;
  s_teams : Z;
  s_processes : Z;
  s_start_time : Q;
  s_duration : Q;
  s_can_parallel : bool
}.

(** The four messages of [_generate_suggestions], with the numbers that
    the source formats into them. *)
Inductive suggestion :=
  | LowParallelism (score : Q)
  | LongCriticalPath (steps : nat)
  | MoreDependentThanIndependent
  | SpareCapacity (teams : Z) (independent : nat).

Record plan_result := PlanResult {
  r_analysis : analysis;
  r_tracks : list track;
  r_resource_allocation : dict string alloc_entry;
  r_execution_plan : list plan_step;
  r_estimated_duration : Q;
  r_optimization_suggestions : list suggestion
}.

(** ** analyze_features and the critical path *)

(** [feature.get('id', feature.get('name'))] *)
Definition feature_id (f : feature) : key :=
  match f_id f with
  | Some i => Some i
  | None => f_name f
  end.

Definition feature_dependencies (f : feature) : list key :=
  default [] (f_dependencies f).

Definition graph_entry (f : feature) : node :=
  {| dependencies := feature_dependencies f;
     complexity := default "medium"%string (f_complexity f);
     priority := default "medium"%string (f_priority f);
     estimated_effort := default 5%Q (f_effort f);
     feature_of := f |}.

(** State of the loop of [analyze_features]: the graph and the two id lists. *)
Definition analyze_step
    (st : dict key node * list key * list key) (f : feature)
  : dict key node * list key * list key :=
  let '(g, indep, dep) := st in
  let g' := dict_set (feature_id f) (graph_entry f) g in
  match feature_dependencies f with
  | [] => (g', indep ++ [feature_id f], dep)
  | _ :: _ => (g', indep, dep ++ [feature_id f])
  end.

(** The nested [dfs] of [_find_critical_path].  [visited.copy()] is the
    value [visited] itself; every recursive call starts from [path = []]. *)
Fixpoint dfs (fuel : nat) (g : dict key node) (n : key)
    (visited : gset key) (path : list key) : option (list key) :=
  match fuel with
  | 0 => None
  | S fuel' =>
      if decide (n ∈ visited) then Some path
      else
        let visited := {[n]} ∪ visited in
        let path := path ++ [n] in
        match
          match dict_get g n with
          | Some data =>
              foldM_opt
                (λ longest_subpath dep,
                   if decide (dep ∈ visited) then Some longest_subpath
                   else
                     match dfs fuel' g dep visited [] with
                     | Some subpath =>
                         Some (if decide (length longest_subpath < length subpath)
                               then subpath else longest_subpath)
                     | None => None
                     end)
                [] (dependencies data)
          | None => Some []
          end
        with
        | Some longest_subpath => Some (path ++ longest_subpath)
        | None => None
        end
  end.

Definition _find_critical_path (g : dict key node) : option (list key) :=
  foldM_opt
    (λ longest_path n,
       match dfs (S (length g)) g n ∅ [] with
       | Some path =>
           Some (if decide (length longest_path < length path)
                 then path else longest_path)
       | None => None
       end)
    [] (dict_keys g).

Definition analyze_features (self : planner) (features : list feature)
  : option (planner * analysis) :=
  let '(g, indep, dep) :=
    fold_left analyze_step features (dependency_graph self, [], []) in
  let self' :=
    {| max_processes := max_processes self;
       dependency_graph := g;
       resource_allocation := resource_allocation self |} in
  match _find_critical_path g with
  | Some cp =>
      Some (self',
            {| total_features := length features;
               an_dependency_graph := g;
               independent_features := indep;
               dependent_features := dep;
               critical_path := cp;
               parallelism_score :=
                 if decide (0 < length features)
                 then (inject_Z (Z.of_nat (length indep))
                       / inject_Z (Z.of_nat (length features)))%Q
                 else 0%Q |})
  | None => None
  end.

(** ** _topological_sort *)

(** Reading a [defaultdict(int)] and a [defaultdict(list)]. *)
Definition in_degree_of (in_degree : gmap key Z) (n : key) : Z :=
  default 0%Z (in_degree !! n).
Definition adjacency_of (adjacency : gmap key (list key)) (n : key) : list key :=
  default [] (adjacency !! n).

(** Body of the inner loop that builds the graph:
    [adjacency[dep].append(node); in_degree[node] += 1]. *)
Definition add_edge (n : key)
    (st : gmap key Z * gmap key (list key)) (dep : key)
  : gmap key Z * gmap key (list key) :=
  let '(in_degree, adjacency) := st in
  (<[n := (in_degree_of in_degree n + 1)%Z]> in_degree,
   <[dep := adjacency_of adjacency dep ++ [n]]> adjacency).

Definition build_degrees (g : dict key node)
  : gmap key Z * gmap key (list key) :=
  fold_left
    (λ st '(n, data), fold_left (add_edge n) (dependencies data) st)
    g (∅, ∅).

(** Body of [for neighbor in adjacency[node]]. *)
Definition relax (st : gmap key Z * list key) (neighbor : key)
  : gmap key Z * list key :=
  let '(in_degree, queue) := st in
  let d := (in_degree_of in_degree neighbor - 1)%Z in
  (<[neighbor := d]> in_degree,
   if decide (d = 0%Z) then queue ++ [neighbor] else queue).

(** Body of [for _ in range(level_size)].  [popleft] on an empty deque
    cannot happen: the loop runs [len(queue)] times and the queue only
    grows behind the items counted. *)
Definition pop_one (adjacency : gmap key (list key))
    (st : gmap key Z * list key * list key)
  : gmap key Z * list key * list key :=
  let '(in_degree, queue, current_level) := st in
  match queue with
  | [] => st
  | n :: queue' =>
      let '(in_degree', queue'') :=
        fold_left relax (adjacency_of adjacency n) (in_degree, queue') in
      (in_degree', queue'', current_level ++ [n])
  end.

(** The [while queue] loop. *)
Fixpoint level_loop (fuel : nat) (adjacency : gmap key (list key))
    (in_degree : gmap key Z) (queue : list key) (levels : list (list key))
  : option (list (list key)) :=
  match fuel with
  | 0 => None
  | S fuel' =>
      match queue with
      | [] => Some levels
      | _ :: _ =>
          let '(in_degree', queue', current_level) :=
            Nat.iter (length queue) (pop_one adjacency) (in_degree, queue, []) in
          level_loop fuel' adjacency in_degree' queue' (levels ++ [current_level])
      end
  end.

Definition _topological_sort (g : dict key node) : option (list (list key)) :=
  let '(in_degree, adjacency) := build_degrees g in
  let queue :=
    filter (λ n, in_degree_of in_degree n = 0%Z) (dict_keys g) in
  level_loop (S (length g)) adjacency in_degree queue [].

(** ** _group_into_tracks *)

Definition make_track (level_idx : nat) (level : list key) : track :=
  if decide (length level = 1)
  then {| t_id := "track_seq_" +:+ pretty level_idx;
          t_type := "sequential";
          t_features := level;
          t_level := level_idx;
          t_can_parallel := false |}
  else {| t_id := "track_par_" +:+ pretty level_idx;
          t_type := "parallel";
          t_features := level;
          t_level := level_idx;
          t_can_parallel := true |}.

Definition _group_into_tracks (sorted_features : list (list key)) : list track :=
  imap make_track sorted_features.

(** ** _allocate_resources *)

(** [{'low': 1, 'medium': 2, 'high': 3}.get(complexity, 2)] *)
Definition complexity_weight (c : string) : Z :=
  if decide (c = "low"%string) then 1
  else if decide (c = "medium"%string) then 2
  else if decide (c = "high"%string) then 3
  else 2.

(** [{'low': 0.8, 'medium': 1.0, 'high': 1.5}.get(priority, 1.0)] *)
Definition priority_mult (p : string) : Q :=
  if decide (p = "low"%string) then (8 # 10)%Q
  else if decide (p = "medium"%string) then 1%Q
  else if decide (p = "high"%string) then (15 # 10)%Q
  else 1%Q.

(** [int(x)] for a float [x]: truncation towards zero. *)
Definition Qtrunc (x : Q) : Z := Z.quot (Qnum x) (Zpos (Qden x)).

Definition track_complexity (g : dict key node) (features : list key) : Q :=
  fold_left
    (λ acc fid,
       match dict_get g fid with
       | Some data =>
           (acc + inject_Z (complexity_weight (complexity data))
                  * priority_mult (priority data))%Q
       | None => acc
       end)
    features 0%Q.

(** The entry stored for a track by the first loop. *)
Definition track_entry (g : dict key node) (t : track) : alloc_entry :=
  {| a_complexity := Some (track_complexity g (t_features t));
     a_features := Some (t_features t);
     a_processes := None;
     a_teams := None |}.

(** First loop: one entry per track id, and the running total. *)
Definition allocate_step (g : dict key node)
    (st : dict string alloc_entry * Q) (t : track)
  : dict string alloc_entry * Q :=
  let '(allocation, total_complexity) := st in
  (dict_set (t_id t) (track_entry g t) allocation,
   (total_complexity + track_complexity g (t_features t))%Q).

Definition proportional_share (c total : Q) (available : Z) : Z :=
  Qtrunc ((c / total) * inject_Z available)%Q.

(** Second loop: the process count of one entry. *)
Definition process_count (total_complexity : Q) (available_processes : Z)
    (data : alloc_entry) : Z :=
  if Qlt_le_dec 0 total_complexity then
    let process_count :=
      proportional_share (default 0%Q (a_complexity data))
        total_complexity available_processes in
    let process_count := Z.max process_count agents_per_team in
    let team_count := (process_count / agents_per_team)%Z in
    (team_count * agents_per_team)%Z
  else agents_per_team.

Definition assign_processes (total_complexity : Q) (available_processes : Z)
    (data : alloc_entry) : alloc_entry :=
  let pc := process_count total_complexity available_processes data in
  {| a_complexity := a_complexity data;
     a_features := a_features data;
     a_processes := Some pc;
     a_teams := Some (pc / agents_per_team)%Z |}.

Definition _allocate_resources (self : planner) (tracks : list track)
  : dict string alloc_entry :=
  let '(allocation, total_complexity) :=
    fold_left (allocate_step (dependency_graph self)) tracks ([], 0%Q) in
  let available_processes := (max_processes self - 100)%Z in
  prod_map id (assign_processes total_complexity available_processes)
    <$> allocation.

(** ** Durations and the execution plan *)

Definition empty_entry : alloc_entry :=
  {| a_complexity := None; a_features := None;
     a_processes := None; a_teams := None |}.

(** The fallback [{'teams': 1}] of [_estimate_duration]. *)
Definition one_team_entry : alloc_entry :=
  {| a_complexity := None; a_features := None;
     a_processes := None; a_teams := Some 1%Z |}.

Definition total_effort (g : dict key node) (features : list key) : Q :=
  fold_left
    (λ acc fid,
       match dict_get g fid with
       | Some data => (acc + estimated_effort data)%Q
       | None => acc
       end)
    features 0%Q.

Definition _estimate_track_duration (self : planner) (t : track)
    (allocation : alloc_entry) : Q :=
  let teams := default 1%Z (a_teams allocation) in
  let base_time :=
    ((total_effort (dependency_graph self) (t_features t) * 5)
     / inject_Z teams)%Q in
  let overhead := if t_can_parallel t then (11 # 10)%Q else 1%Q in
  (base_time * overhead)%Q.

(** The [step] dict built in the loop of [_create_execution_plan]. *)
Definition make_step (self : planner) (allocation : dict string alloc_entry)
    (plan : list plan_step) (current_time : Q) (t : track) : plan_step :=
  let track_allocation := default empty_entry (dict_get allocation (t_id t)) in
  {| s_step := length plan + 1;
     s_track_id := t_id t;
     s_type := t_type t;
     s_features := t_features t;
     s_teams := default 1%Z (a_teams track_allocation);
     s_processes := default agents_per_team (a_processes track_allocation);
     s_start_time := current_time;
     s_duration := _estimate_track_duration self t track_allocation;
     s_can_parallel := t_can_parallel t |}.

Definition plan_step_of (self : planner) (allocation : dict string alloc_entry)
    (st : list plan_step * Q) (t : track) : list plan_step * Q :=
  let '(plan, current_time) := st in
  let step := make_step self allocation plan current_time t in
  (plan ++ [step],
   if t_can_parallel t then current_time
   else (current_time + s_duration step)%Q).

Definition _create_execution_plan (self : planner) (tracks : list track)
    (allocation : dict string alloc_entry) : list plan_step :=
  (fold_left (plan_step_of self allocation) tracks ([], 0%Q)).1.

(** [max(a, b)] on floats: [b] only when it is strictly greater. *)
Definition Qmax (a b : Q) : Q := if Qlt_le_dec a b then b else a.

Definition estimate_step (self : planner) (st : Q * Q) (t : track) : Q * Q :=
  let '(total_duration, parallel_duration) := st in
  let track_duration :=
    _estimate_track_duration self t
      (default one_team_entry (dict_get (resource_allocation self) (t_id t))) in
  if t_can_parallel t
  then (total_duration, Qmax parallel_duration track_duration)
  else ((total_duration + track_duration)%Q, parallel_duration).

Definition _estimate_duration (self : planner) (tracks : list track) : Q :=
  let '(total_duration, parallel_duration) :=
    fold_left (estimate_step self) tracks (0%Q, 0%Q) in
  (total_duration + parallel_duration)%Q.

(** ** Suggestions and the planning entry point *)

Definition _generate_suggestions (self : planner) (a : analysis)
  : list suggestion :=
  (if Qlt_le_dec (parallelism_score a) (1 # 2)
   then [LowParallelism (parallelism_score a)] else [])
  ++ (if decide (5 < length (critical_path a))
      then [LongCriticalPath (length (critical_path a))] else [])
  ++ (if decide (length (independent_features a) < length (dependent_features a))
      then [MoreDependentThanIndependent] else [])
  ++ (if decide (Z.of_nat (length (independent_features a)) < max_teams self)%Z
      then [SpareCapacity (max_teams self) (length (independent_features a))]
      else []).

Definition create_parallel_tracks (self : planner) (features : list feature)
  : option (planner * plan_result) :=
  match analyze_features self features with
  | Some (self, a) =>
      match _topological_sort (dependency_graph self) with
      | Some sorted_features =>
          let tracks := _group_into_tracks sorted_features in
          let allocation := _allocate_resources self tracks in
          Some (self,
                {| r_analysis := a;
                   r_tracks := tracks;
                   r_resource_allocation := allocation;
                   r_execution_plan :=
                     _create_execution_plan self tracks allocation;
                   r_estimated_duration := _estimate_duration self tracks;
                   r_optimization_suggestions := _generate_suggestions self a |})
      | None => None
      end
  | None => None
  end.

(** ** The sample task set of the module's [__main__] block *)

Definition sample_feature (id name complexity priority : string)
    (deps : list string) : feature :=
  {| f_id := Some id; f_name := Some name;
     f_complexity := Some complexity; f_priority := Some priority;
     f_effort := None; f_dependencies := Some (Some <$> deps) |}.

Definition sample_features : list feature :=
  [ sample_feature "auth" "Authentication" "high" "high" [];
    sample_feature "profile" "User Profile" "medium" "medium" ["auth"];
    sample_feature "dashboard" "Dashboard" "high" "high" ["auth"; "profile"];
    sample_feature "payments" "Payments" "high" "high" ["auth"];
    sample_feature "analytics" "Analytics" "medium" "low" [];
    sample_feature "seo" "SEO Pages" "low" "medium" [];
    sample_feature "roulette" "Roulette Engine" "high" "high" [];
    sample_feature "social" "Social Features" "medium" "low" ["auth"; "profile"] ]%string.

(** ** _split_feature and optimize_sprint *)

(** [str.lower()] on ASCII letters.  Strings are byte strings; the three
    keyword tests of [_split_feature] only look for ASCII letters. *)
Definition ascii_lower (c : Ascii.ascii) : Ascii.ascii :=
  let n := Ascii.nat_of_ascii c in
  if (65 <=? n) && (n <=? 90) then Ascii.ascii_of_nat (n + 32) else c.

Fixpoint lower (s : string) : string :=
  match s with
  | EmptyString => EmptyString
  | String c s' => String (ascii_lower c) (lower s')
  end.

(** [needle in s] *)
Fixpoint contains (needle s : string) : bool :=
  if String.prefix needle s then true
  else match s with
       | EmptyString => false
       | String _ s' => contains needle s'
       end.

Definition split_names (base_name : string) : list string :=
  if contains "auth" (lower base_name)
  then ["Login UI"; "Registration"; "Password Reset"; "Session Management"]
  else if contains "payment" (lower base_name)
  then ["Payment UI"; "Stripe Integration"; "Transaction History"; "Receipts"]
  else if contains "dashboard" (lower base_name)
  then ["Layout"; "Widgets"; "Data Fetching"; "Real-time Updates"]
  else ["Frontend"; "Backend"; "Database"; "Testing"].

Definition _split_feature (f : feature) : list feature :=
  let base_name := default "Feature"%string (f_name f) in
  imap
    (λ idx split_name,
       {| f_id := Some (default "f" (f_id f) +:+ "_" +:+ pretty idx);
          f_name := Some (base_name +:+ " - " +:+ split_name);
          f_complexity := Some "low";
          f_priority := Some (default "medium" (f_priority f));
          f_effort := Some 2%Q;
          f_dependencies := Some [] |}%string)
    (split_names base_name).

(** The sprint dict: only its ['features'] entry is read. *)
Record sprint := Sprint {
  sp_features : option (list feature)
}.

(** The ['optimized'] dict once it has been filled. *)
Record optimized := Optimized {
  op_features : list feature;
  op_tracks : plan_result
}.

Record optimization := Optimization {
  o_original : sprint;
  o_optimized : option optimized;
  o_improvements : list string
}.

(** Body of the loop over the features in [optimize_sprint]. *)
Definition optimize_step (st : list feature * list string) (f : feature)
  : list feature * list string :=
  let '(optimized_features, improvements) := st in
  if decide (f_complexity f = Some "high"%string
             ∧ feature_dependencies f = [])
  then
    let sub_features := _split_feature f in
    (optimized_features ++ sub_features,
     improvements
     ++ [("Split feature '" +:+ default "None" (f_name f) +:+ "' into "
          +:+ pretty (length sub_features) +:+ " sub-features")%string])
  else (optimized_features ++ [f], improvements).

Definition optimize_sprint (self : planner) (current_sprint : sprint)
  : option (planner * optimization) :=
  let features := default [] (sp_features current_sprint) in
  match analyze_features self features with
  | Some (self, current_analysis) =>
      if Qlt_le_dec (parallelism_score current_analysis) (7 # 10)
      then
        let '(optimized_features, improvements) :=
          fold_left optimize_step features ([], []) in
        match create_parallel_tracks self optimized_features with
        | Some (self, tracks) =>
            Some (self,
                  {| o_original := current_sprint;
                     o_optimized :=
                       Some {| op_features := optimized_features;
                               op_tracks := tracks |};
                     o_improvements := improvements |})
        | None => None
        end
      else
        Some (self,
              {| o_original := current_sprint;
                 o_optimized := None;
                 o_improvements := [] |})
  | None => None
  end.

(** ** monitor_sprint_execution *)

Record track_status := TrackStatus {
  ts_completion_rate : option Q;
  ts_elapsed_time : option Q
}.

Record sprint_status := SprintStatus {
  st_tracks : option (dict string track_status)
}.

Record bottleneck := Bottleneck {
  b_track : string;
  b_completion : Q;
  b_suggestion : string
}.

Record monitoring := Monitoring {
  m_status : sprint_status;
  m_bottlenecks : list bottleneck;
  m_reallocation_suggestions : list string;
  m_health_score : Q
}.

Definition completion_rate_of (t : track_status) : Q :=
  default 0%Q (ts_completion_rate t).

(** Body of the loop that collects the bottlenecks. *)
Definition monitor_step (bottlenecks : list bottleneck)
    (item : string * track_status) : list bottleneck :=
  let '(track_id, status) := item in
  let completion_rate := completion_rate_of status in
  if Qlt_le_dec completion_rate (1 # 2) then
    if Qlt_le_dec 10 (default 0%Q (ts_elapsed_time status)) then
      bottlenecks
      ++ [{| b_track := track_id;
             b_completion := completion_rate;
             b_suggestion := "Allocate more resources to this track" |}]
    else bottlenecks
  else bottlenecks.

(** The method does not read [self]. *)
Definition monitor_sprint_execution (status : sprint_status) : monitoring :=
  let tracks := default [] (st_tracks status) in
  let bottlenecks := fold_left monitor_step tracks [] in
  let total_completion :=
    fold_left (λ acc item, (acc + completion_rate_of item.2)%Q) tracks 0%Q in
  let track_count := length tracks in
  let health_score :=
    if decide (0 < track_count)
    then (total_completion / inject_Z (Z.of_nat track_count))%Q
    else 0%Q in
  {| m_status := status;
     m_bottlenecks := bottlenecks;
     m_reallocation_suggestions :=
       if Qlt_le_dec health_score (7 # 10)
       then ["Sprint health is low. Consider reallocating idle resources to bottleneck tracks."%string]
       else [];
     m_health_score := health_score |}.

(** ** Vocabulary of the properties *)

(** The declared dependencies of a task ([[]] for an id that is no task). *)
Definition deps_of (g : dict key node) (n : key) : list key :=
  match dict_get g n with
  | Some data => dependencies data
  | None => []
  end.

(** [edge g t d]: task [t] lists [d] as a dependency. *)
Definition edge (g : dict key node) (t d : key) : Prop := d ∈ deps_of g t.

(** Number of occurrences of [x] in [l]. *)
Definition count (x : key) (l : list key) : nat := length (filter (x =.) l).

(** Invariant of the leveler between two [popleft]s: [done] are the ids
    already emitted, [queue] the deque. *)
Record kahn_inv (g : dict key node) (in_degree : gmap key Z)
    (done queue : list key) : Prop := KahnInv {
  ki_nodup : NoDup (done ++ queue);
  ki_keys : ∀ n, n ∈ done ++ queue → n ∈ dict_keys g;
  ki_degree : ∀ n, n ∈ dict_keys g →
    in_degree_of in_degree n
    = Z.of_nat (length (filter (.∉ done) (deps_of g n)));
  ki_ready : ∀ n, n ∈ dict_keys g →
    (n ∈ done ++ queue ↔ Forall (.∈ done) (deps_of g n))
}.

(** Every task of a level has all its dependencies in earlier levels. *)
Definition levels_ordered (g : dict key node) (levels : list (list key)) : Prop :=
  ∀ i l t d, levels !! i = Some l → t ∈ l → edge g t d →
    ∃ j l', j < i ∧ levels !! j = Some l' ∧ d ∈ l'.

(** [at_level levels t i]: task [t] is a member of level [i]. *)
Definition at_level (levels : list (list key)) (t : key) (i : nat) : Prop :=
  ∃ l, levels !! i = Some l ∧ t ∈ l.

(** A dependency chain: each id lists the next one as a dependency. *)
Fixpoint is_chain (g : dict key node) (c : list key) : Prop :=
  match c with
  | [] => True
  | a :: c' =>
      match c' with
      | [] => True
      | b :: _ => edge g a b ∧ is_chain g c'
      end
  end.

(** A chain of the graph starts at one of its tasks. *)
Definition chain_of (g : dict key node) (c : list key) : Prop :=
  is_chain g c ∧ ∀ x, head c = Some x → x ∈ dict_keys g.

(** No task reaches itself through one or more dependency edges. *)
Definition acyclic (g : dict key node) : Prop := ∀ n, ¬ tc (edge g) n n.

(** Every referenced dependency is a task of the graph. *)
Definition closed (g : dict key node) : Prop :=
  ∀ t d, edge g t d → d ∈ dict_keys g.

(** Executable certificates for the two graph conditions. *)
Definition ranked_by (rank : key → nat) (g : dict key node) : bool :=
  forallb (λ '(n, data), forallb (λ d, rank d <? rank n) (dependencies data)) g.

Definition closedb (g : dict key node) : bool :=
  forallb
    (λ '(_, data),
       forallb (λ d, bool_decide (d ∈ dict_keys g)) (dependencies data))
    g.

Fixpoint position (order : list key) (k : key) : nat :=
  match order with
  | [] => 0
  | x :: order' => if decide (x = k) then 0 else S (position order' k)
  end.

(** The planner's dictionary has unique keys, as every Python dict. *)
Definition planner_wf (self : planner) : Prop :=
  NoDup (dict_keys (dependency_graph self)).

(** The graph after the loop of [analyze_features], and its two id lists. *)
Definition add_features (g : dict key node) (features : list feature)
  : dict key node :=
  fold_left (λ g f, dict_set (feature_id f) (graph_entry f) g) features g.

Definition independent (f : feature) : Prop := feature_dependencies f = [].

(** The record [create_parallel_tracks] returns for given levels. *)
Definition plan_of (self : planner) (a : analysis) (levels : list (list key))
  : plan_result :=
  let tracks := _group_into_tracks levels in
  let allocation := _allocate_resources self tracks in
  {| r_analysis := a;
     r_tracks := tracks;
     r_resource_allocation := allocation;
     r_execution_plan := _create_execution_plan self tracks allocation;
     r_estimated_duration := _estimate_duration self tracks;
     r_optimization_suggestions := _generate_suggestions self a |}.

(** Task sets used as concrete inputs. *)
Definition task (id : string) (deps : list string) : feature :=
  {| f_id := Some id; f_name := None; f_complexity := None;
     f_priority := None; f_effort := None;
     f_dependencies := Some (Some <$> deps) |}.

Definition cyclic_features : list feature :=
  [task "A" ["B"]; task "B" ["A"]]%string.

Definition dangling_features : list feature := [task "B" ["X"]]%string.

Definition sample_order : list key :=
  Some <$> ["auth"; "analytics"; "seo"; "roulette"; "profile"; "payments";
            "dashboard"; "social"]%string.

(** [p] starts at [n], is a chain, and no chain from [n] is longer. *)
Definition longest_from (g : dict key node) (n : key) (p : list key) : Prop :=
  head p = Some n ∧ is_chain g p
  ∧ ∀ c, head c = Some n → is_chain g c → length c ≤ length p.

(** The search with [fuel] is right wherever it returns, as long as nothing
    reachable from the start has been visited. *)
Definition dfs_ok (g : dict key node) (fuel : nat) : Prop :=
  ∀ n (visited : gset key) p,
    (∀ x, rtc (edge g) n x → x ∉ visited) →
    dfs fuel g n visited [] = Some p → longest_from g n p.

(** Sum of a list of durations. *)
Definition Qsum (l : list Q) : Q := foldr Qplus 0%Q l.

(** Cumulative duration of the Sequential steps among the first [i] steps. *)
Definition sequential_time_before (plan : list plan_step) (i : nat) : Q :=
  Qsum (s_duration
        <$> filter (λ s, s_type s = "sequential"%string) (take i plan)).

(** A step and the track it was made from agree on kind and flag. *)
Definition step_matches (s : plan_step) (tr : track) : Prop :=
  s_type s = t_type tr ∧ s_can_parallel s = t_can_parallel tr
  ∧ s_track_id s = t_id tr.

Definition single_task : list feature := [task "a" []]%string.

(** Sum of the ['processes'] entries of an allocation. *)
Definition Zsum (l : list Z) : Z := foldr Z.add 0%Z l.

Definition entry_processes (e : alloc_entry) : Z := default 0%Z (a_processes e).

Definition allocated_processes (allocation : dict string alloc_entry) : Z :=
  Zsum ((λ kv, entry_processes kv.2) <$> allocation).

(** Number of tracks that hold exactly one team. *)
Definition one_team_tracks (allocation : dict string alloc_entry) : nat :=
  length (filter (λ kv, entry_processes kv.2 = agents_per_team) allocation).

(** The total complexity accumulated by the first loop. *)
Definition total_complexity_of (g : dict key node) (tracks : list track) : Q :=
  fold_left (λ acc t, (acc + track_complexity g (t_features t))%Q) tracks 0%Q.

Definition two_chain : list feature := [task "a" []; task "b" ["a"]]%string.

(** A chain of [n] tasks: task [i] depends on task [i - 1]. *)
Definition chain_task (i : nat) : feature :=
  task (pretty i) (match i with 0 => [] | S j => [pretty j] end).

Definition chain_features (n : nat) : list feature := chain_task <$> seq 0 n.

(** The entry that the loop of [analyze_features] leaves under [k]: the
    one of the last feature with that id, if any. *)
Fixpoint last_entry (features : list feature) (k : key) : option node :=
  match features with
  | [] => None
  | f :: features' =>
      match last_entry features' k with
      | Some v => Some v
      | None => if decide (feature_id f = k) then Some (graph_entry f) else None
      end
  end.

(** A feature with its three optional fields made explicit: a missing or
    unrecognised complexity or priority becomes ["medium"], a missing
    effort becomes 5. *)
Definition known_level (s : string) : string :=
  if decide (s = "low"%string) then "low"
  else if decide (s = "high"%string) then "high"
  else "medium".

Definition explicit_feature (f : feature) : feature :=
  {| f_id := f_id f;
     f_name := f_name f;
     f_complexity := Some (known_level (default "medium"%string (f_complexity f)));
     f_priority := Some (known_level (default "medium"%string (f_priority f)));
     f_effort := Some (default 5%Q (f_effort f));
     f_dependencies := f_dependencies f |}.

(** Two graph entries that the planner cannot tell apart. *)
Definition node_equiv (v v' : node) : Prop :=
  dependencies v = dependencies v'
  ∧ complexity_weight (complexity v) = complexity_weight (complexity v')
  ∧ priority_mult (priority v) = priority_mult (priority v')
  ∧ estimated_effort v = estimated_effort v'.

Definition graph_equiv (g g' : dict key node) : Prop :=
  Forall2 (λ kv kv', kv.1 = kv'.1 ∧ node_equiv kv.2 kv'.2) g g'.

(** Two planners that differ at most in indistinguishable graph entries. *)
Definition planner_equiv (p p' : planner) : Prop :=
  max_processes p = max_processes p'
  ∧ resource_allocation p = resource_allocation p'
  ∧ graph_equiv (dependency_graph p) (dependency_graph p').

(** Tasks with missing and unrecognised fields. *)
Definition sloppy_features : list feature :=
  [ {| f_id := Some "a"; f_name := None; f_complexity := None;
       f_priority := Some "urgent"; f_effort := None;
       f_dependencies := None |};
    {| f_id := None; f_name := Some "b"; f_complexity := Some "huge";
       f_priority := None; f_effort := None;
       f_dependencies := Some [Some "a"] |} ]%string.

(** The tasks without dependencies, in dictionary order. *)
Definition dependency_free (g : dict key node) : list key :=
  filter (λ n, deps_of g n = []) (dict_keys g).

(** The features that [optimize_sprint] splits, what it puts in their
    place, and the message it records. *)
Definition splittable (f : feature) : Prop :=
  f_complexity f = Some "high"%string ∧ feature_dependencies f = [].

Definition expand (f : feature) : list feature :=
  if decide (splittable f) then _split_feature f else [f].

Definition split_message (f : feature) : string :=
  ("Split feature '" +:+ default "None" (f_name f) +:+ "' into "
   +:+ pretty (length (_split_feature f)) +:+ " sub-features")%string.

(** A sprint with one splittable feature and one feature that depends on it. *)
Definition split_sprint : sprint :=
  {| sp_features :=
       Some [ {| f_id := Some "x"; f_name := Some "User Auth";
                 f_complexity := Some "high"; f_priority := None;
                 f_effort := None; f_dependencies := None |};
              task "y" ["x"] ]%string |}.

Definition split_order : list key :=
  Some <$> ["x"; "x_0"; "x_1"; "x_2"; "x_3"; "y"]%string.

(** A track is reported as a bottleneck when less than half complete after
    more than 10 seconds. *)
Definition is_bottleneck (t : track_status) : Prop :=
  (completion_rate_of t < 1 # 2)%Q ∧ (10 < default 0%Q (ts_elapsed_time t))%Q.

Definition two_track_status : sprint_status :=
  {| st_tracks :=
       Some [ ("track_seq_0"%string,
               {| ts_completion_rate := Some (1 # 4)%Q;
                  ts_elapsed_time := Some 20%Q |});
              ("track_par_1"%string,
               {| ts_completion_rate := Some 1%Q;
                  ts_elapsed_time := None |}) ] |}.

(** ** Dictionaries *)

Section DictFacts.
Context {K V : Type} `{EqDecision K}.
Implicit Types (d : dict K V) (k : K) (v : V).

Lemma dict_get_Some_keys d k v : dict_get d k = Some v → k ∈ dict_keys d.
Proof.
  induction d as [|[k' v'] d IH]; simpl; [done|].
  case_decide; subst; intros ?; [left | right; auto].
Qed.

Lemma dict_get_None_keys d k : dict_get d k = None ↔ k ∉ dict_keys d.
Proof.
  induction d as [|[k' v'] d IH]; simpl.
  - split; [intros _; apply not_elem_of_nil | done].
  - rewrite not_elem_of_cons. destruct (decide (k' = k)) as [->|Hne].
    + split; [done | by intros [? _]].
    + rewrite IH. split; [by split | by intros [_ ?]].
Qed.

Lemma dict_get_is_Some d k : is_Some (dict_get d k) ↔ k ∈ dict_keys d.
Proof.
  destruct (dict_get d k) eqn:E.
  - split; [intros _; eauto using dict_get_Some_keys | eauto].
  - apply dict_get_None_keys in E. split; [intros [? [=]] | done].
Qed.

Lemma dict_get_set d k k' v :
  dict_get (dict_set k v d) k' = if decide (k = k') then Some v else dict_get d k'.
Proof.
  induction d as [|[k1 v1] d IH]; simpl.
  - repeat case_decide; congruence.
  - repeat (case_decide; simpl); subst; try congruence.
Qed.

Lemma dict_keys_set d k v :
  dict_keys (dict_set k v d)
  = if decide (k ∈ dict_keys d) then dict_keys d else dict_keys d ++ [k].
Proof.
  unfold dict_keys. induction d as [|[k1 v1] d IH].
  - simpl. destruct (decide (k ∈ [])) as [[]%elem_of_nil|]; done.
  - cbn [dict_set]. destruct (decide (k1 = k)) as [->|Hne]; rewrite !fmap_cons; simpl.
    + rewrite decide_True; [done | left].
    + rewrite IH. destruct (decide (k ∈ d.*1)) as [Hin|Hin].
      * rewrite decide_True; [done | by right].
      * rewrite decide_False; [done|]. by intros [->|?]%elem_of_cons.
Qed.

Lemma dict_set_NoDup d k v : NoDup (dict_keys d) → NoDup (dict_keys (dict_set k v d)).
Proof.
  intros Hd. rewrite dict_keys_set. case_decide; [done|].
  apply NoDup_app. split_and!; [done | | apply NoDup_singleton].
  intros x Hx ->%list_elem_of_singleton. done.
Qed.

(** Two dictionaries with the same key order and the same lookups are equal. *)
Lemma dict_ext d1 d2 :
  NoDup (dict_keys d1) → dict_keys d1 = dict_keys d2 →
  (∀ k, dict_get d1 k = dict_get d2 k) → d1 = d2.
Proof.
  unfold dict_keys. revert d2.
  induction d1 as [|[k1 v1] d1 IH]; intros [|[k2 v2] d2]; simpl; try done.
  intros [Hk1 Hnd]%NoDup_cons [= <- Hkeys] Hget.
  pose proof (Hget k1) as H1. simpl in H1. rewrite !decide_True in H1 by done.
  injection H1 as <-. f_equal. apply IH; [done..|].
  intros k. specialize (Hget k). simpl in Hget.
  destruct (decide (k1 = k)) as [<-|]; [|done].
  transitivity (@None V); [|symmetry]; apply dict_get_None_keys.
  - exact Hk1.
  - unfold dict_keys. change (k1 ∉ list_fmap _ _ fst d2). by rewrite <- Hkeys.
Qed.
End DictFacts.

(** ** The leveler: counting lemmas and the graph-building loops *)

Lemma count_cons x y l :
  count x (y :: l) = (if decide (x = y) then 1 else 0) + count x l.
Proof. unfold count. rewrite filter_cons. by case_decide. Qed.

Lemma count_nil x : count x [] = 0.
Proof. done. Qed.

Lemma count_app x l1 l2 : count x (l1 ++ l2) = count x l1 + count x l2.
Proof. unfold count. by rewrite filter_app, length_app. Qed.

Lemma count_zero x l : count x l = 0 ↔ x ∉ l.
Proof.
  induction l as [|y l IH]; [by split; [intros _; apply not_elem_of_nil|]|].
  rewrite count_cons, not_elem_of_cons. destruct (decide (x = y)) as [Hxy|Hxy].
  - split; [lia | by intros [? _]].
  - rewrite <- IH. split; [intros; split; [done | lia] | intros [_ ?]; lia].
Qed.

Lemma count_pos x l : 0 < count x l ↔ x ∈ l.
Proof.
  destruct (decide (x ∈ l)) as [Hin|Hin].
  - split; [done|]. intros _. destruct (count x l) eqn:E; [|lia].
    by apply count_zero in E.
  - apply count_zero in Hin as Hc. rewrite Hc. split; [lia | done].
Qed.

Lemma remaining_snoc (done : list key) n l :
  n ∉ done →
  length (filter (.∉ done) l) = length (filter (.∉ done ++ [n]) l) + count n l.
Proof.
  intros Hn. induction l as [|x l IH]; [done|].
  rewrite !filter_cons, count_cons.
  destruct (decide (n = x)) as [<-|Hne].
  - rewrite decide_True by done.
    rewrite decide_False
      by (intros Hc; apply Hc, elem_of_app; right; apply list_elem_of_here).
    simpl. lia.
  - destruct (decide (x ∉ done)) as [Hx|Hx].
    + rewrite decide_True; [simpl; lia|].
      intros [?|Hxn%list_elem_of_singleton]%elem_of_app; [done | congruence].
    + rewrite decide_False; [simpl; lia|].
      intros Hc. apply Hx. intros ?. apply Hc, elem_of_app. by left.
Qed.

Lemma remaining_zero (done : list key) l :
  length (filter (.∉ done) l) = 0 ↔ Forall (.∈ done) l.
Proof.
  induction l as [|x l IH]; [by split|].
  rewrite filter_cons, Forall_cons. destruct (decide (x ∉ done)) as [Hx|Hx].
  - simpl. split; [lia | tauto].
  - apply dec_stable in Hx. rewrite IH. tauto.
Qed.

Lemma deps_of_cons m data g n :
  deps_of ((m, data) :: g) n
  = if decide (m = n) then dependencies data else deps_of g n.
Proof. unfold deps_of. simpl. by case_decide. Qed.

Lemma deps_of_not_key g n : n ∉ dict_keys g → deps_of g n = [].
Proof. intros H%dict_get_None_keys. unfold deps_of. by rewrite H. Qed.

Lemma edge_key g t d : edge g t d → t ∈ dict_keys g.
Proof.
  unfold edge. intros H. destruct (decide (t ∈ dict_keys g)) as [|Hn]; [done|].
  rewrite (deps_of_not_key _ _ Hn) in H. by apply elem_of_nil in H.
Qed.

Lemma in_degree_of_insert (in_degree : gmap key Z) n v m :
  in_degree_of (<[n := v]> in_degree) m
  = if decide (m = n) then v else in_degree_of in_degree m.
Proof.
  unfold in_degree_of. case_decide; subst.
  - by rewrite lookup_insert_eq.
  - by rewrite lookup_insert_ne.
Qed.

Lemma adjacency_of_insert (adjacency : gmap key (list key)) n l m :
  adjacency_of (<[n := l]> adjacency) m
  = if decide (m = n) then l else adjacency_of adjacency m.
Proof.
  unfold adjacency_of. case_decide; subst.
  - by rewrite lookup_insert_eq.
  - by rewrite lookup_insert_ne.
Qed.

Lemma add_edges_spec n deps in_degree adjacency in_degree' adjacency' :
  fold_left (add_edge n) deps (in_degree, adjacency) = (in_degree', adjacency') →
  (∀ m, in_degree_of in_degree' m
        = (in_degree_of in_degree m
           + if decide (m = n) then Z.of_nat (length deps) else 0)%Z)
  ∧ (∀ d m, count m (adjacency_of adjacency' d)
            = count m (adjacency_of adjacency d)
              + if decide (m = n) then count d deps else 0).
Proof.
  revert in_degree adjacency.
  induction deps as [|dep deps IH]; intros in_degree adjacency; simpl.
  - intros [= <- <-]. split; intros; case_decide; rewrite ?count_nil; simpl; lia.
  - intros [Hdeg Hadj]%IH. split.
    + intros m. rewrite Hdeg, in_degree_of_insert. case_decide; subst; lia.
    + intros d m. rewrite Hadj, adjacency_of_insert, count_cons.
      destruct (decide (d = dep)) as [->|Hd].
      * rewrite count_app, count_cons, count_nil. case_decide; lia.
      * case_decide; lia.
Qed.

Lemma build_degrees_from g : ∀ in_degree0 adjacency0 in_degree adjacency,
  NoDup (dict_keys g) →
  fold_left (λ st '(n, data), fold_left (add_edge n) (dependencies data) st)
    g (in_degree0, adjacency0) = (in_degree, adjacency) →
  (∀ m, in_degree_of in_degree m
        = (in_degree_of in_degree0 m + Z.of_nat (length (deps_of g m)))%Z)
  ∧ (∀ d m, count m (adjacency_of adjacency d)
            = count m (adjacency_of adjacency0 d) + count d (deps_of g m)).
Proof.
  induction g as [|[n data] g IH]; intros in_degree0 adjacency0 in_degree adjacency.
  - intros _ [= <- <-]. split; intros; unfold deps_of; simpl; rewrite ?count_nil; lia.
  - intros [Hn Hnd]%NoDup_cons. simpl.
    destruct (fold_left (add_edge n) (dependencies data) (in_degree0, adjacency0))
      as [in_degree1 adjacency1] eqn:E1.
    apply add_edges_spec in E1 as [Hdeg1 Hadj1].
    intros [Hdeg Hadj]%IH; [|done]. split.
    + intros m. rewrite Hdeg, Hdeg1, deps_of_cons.
      destruct (decide (m = n)) as [->|Hm].
      * rewrite decide_True by done. rewrite (deps_of_not_key g n) by done.
        simpl. lia.
      * rewrite decide_False by done. lia.
    + intros d m. rewrite Hadj, Hadj1, deps_of_cons.
      destruct (decide (m = n)) as [->|Hm].
      * rewrite decide_True by done. rewrite (deps_of_not_key g n) by done.
        rewrite count_nil. lia.
      * rewrite decide_False by done. lia.
Qed.

Lemma build_degrees_spec g in_degree adjacency :
  NoDup (dict_keys g) →
  build_degrees g = (in_degree, adjacency) →
  (∀ m, in_degree_of in_degree m = Z.of_nat (length (deps_of g m)))
  ∧ (∀ d m, count m (adjacency_of adjacency d) = count d (deps_of g m)).
Proof.
  intros Hnd [Hdeg Hadj]%build_degrees_from; [|done]. split.
  - intros m. rewrite Hdeg. unfold in_degree_of. rewrite lookup_empty. simpl. lia.
  - intros d m. rewrite Hadj. unfold adjacency_of. rewrite lookup_empty. done.
Qed.

(** ** The leveler: one [popleft] preserves the invariant *)

Lemma relax_fold neighbors : ∀ in_degree queue,
  (∀ n, n ∈ neighbors →
        (Z.of_nat (count n neighbors) ≤ in_degree_of in_degree n)%Z) →
  ∃ in_degree' added,
    fold_left relax neighbors (in_degree, queue) = (in_degree', queue ++ added)
    ∧ (∀ n, in_degree_of in_degree' n
            = (in_degree_of in_degree n - Z.of_nat (count n neighbors))%Z)
    ∧ NoDup added
    ∧ (∀ n, n ∈ added ↔
            n ∈ neighbors
            ∧ in_degree_of in_degree n = Z.of_nat (count n neighbors)).
Proof.
  induction neighbors as [|x L IH]; intros in_degree queue Hge.
  - exists in_degree, []. rewrite app_nil_r. split_and!; [done | | apply NoDup_nil_2 |].
    + intros n. rewrite count_nil. lia.
    + intros n. split; [by intros ?%elem_of_nil | by intros [?%elem_of_nil _]].
  - cbn [fold_left relax].
    set (d := (in_degree_of in_degree x - 1)%Z).
    set (in_degree1 := <[x := d]> in_degree).
    set (queue1 := if decide (d = 0%Z) then queue ++ [x] else queue).
    assert (Hx : (Z.of_nat (count x (x :: L)) ≤ in_degree_of in_degree x)%Z)
      by (apply Hge; left).
    rewrite count_cons, decide_True in Hx by done.
    assert (Hdeg1 : ∀ n, in_degree_of in_degree1 n
                         = if decide (n = x) then d else in_degree_of in_degree n)
      by (intros n; apply in_degree_of_insert).
    destruct (IH in_degree1 queue1) as (in_degree' & added & Hfold & Hdeg & Hnd & Hin).
    { intros n Hn. rewrite Hdeg1. case_decide; subst; [unfold d; lia|].
      assert (Hn' : n ∈ x :: L) by (by right). apply Hge in Hn'.
      rewrite count_cons, decide_False in Hn' by done. lia. }
    exists in_degree', ((if decide (d = 0%Z) then [x] else []) ++ added).
    split_and!.
    + rewrite Hfold. unfold queue1. case_decide; by rewrite <- ?app_assoc.
    + intros n. rewrite Hdeg, Hdeg1, count_cons. unfold d. case_decide; subst; lia.
    + apply NoDup_app. split_and!; [case_decide; [apply NoDup_singleton | apply NoDup_nil_2] | | done].
      intros n Hn Hn'. case_decide as Hd; [|by apply elem_of_nil in Hn].
      apply list_elem_of_singleton in Hn as ->.
      apply Hin in Hn' as [HxL Hc]. rewrite Hdeg1, decide_True in Hc by done.
      apply count_pos in HxL. lia.
    + intros n. rewrite elem_of_app, Hin, Hdeg1, count_cons, elem_of_cons.
      destruct (decide (n = x)) as [->|Hne].
      * destruct (decide (d = 0%Z)) as [Hd|Hd].
        -- rewrite list_elem_of_singleton. split; [intros _|by left].
           split; [by left | unfold d in Hd; lia].
        -- unfold d in *. split.
           ++ intros [[]%elem_of_nil|[HxL Hc]]. split; [by left | lia].
           ++ intros [_ Hc]. right. split; [|lia].
              apply count_pos. lia.
      * split.
        -- intros [Hn|[HnL Hc]].
           ++ case_decide; [apply list_elem_of_singleton in Hn; done | by apply elem_of_nil in Hn].
           ++ split; [by right | lia].
        -- intros [[?|HnL] Hc]; [done|]. right. split; [done | lia].
Qed.

Lemma elem_of_concat_lookup (ls : list (list key)) x :
  x ∈ concat ls ↔ ∃ i l, ls !! i = Some l ∧ x ∈ l.
Proof.
  induction ls as [|l0 ls IH]; simpl.
  - split; [by intros ?%elem_of_nil | by intros (i & l & ? & _)].
  - rewrite elem_of_app, IH. split.
    + intros [?|(i & l & ? & ?)]; [by exists 0, l0 | by exists (S i), l].
    + intros ([|i] & l & Hl & ?); simpl in Hl; [left; congruence | right; eauto].
Qed.

Lemma NoDup_incl_length (l k : list key) :
  NoDup l → (∀ x, x ∈ l → x ∈ k) → length l ≤ length k.
Proof. intros Hnd Hsub. by apply submseteq_length, NoDup_submseteq. Qed.

Section Kahn.
Context (g : dict key node) (adjacency : gmap key (list key)).
Hypothesis Hadj :
  ∀ d m, count m (adjacency_of adjacency d) = count d (deps_of g m).

Lemma adjacency_elem d m : m ∈ adjacency_of adjacency d ↔ edge g m d.
Proof. unfold edge. by rewrite <- !count_pos, Hadj. Qed.

Lemma pop_one_inv in_degree done n queue current :
  kahn_inv g in_degree done (n :: queue) →
  ∃ in_degree' added,
    pop_one adjacency (in_degree, n :: queue, current)
    = (in_degree', queue ++ added, current ++ [n])
    ∧ kahn_inv g in_degree' (done ++ [n]) (queue ++ added).
Proof.
  intros [Hnd Hkeys Hdeg Hready].
  assert (Hn : n ∉ done).
  { apply NoDup_app in Hnd as (_ & Hdisj & _). intros Hin.
    apply (Hdisj n Hin). left. }
  assert (Hrem : ∀ m, m ∈ dict_keys g →
    in_degree_of in_degree m
    = (Z.of_nat (length (filter (.∉ done ++ [n]) (deps_of g m)))
       + Z.of_nat (count m (adjacency_of adjacency n)))%Z).
  { intros m Hm. rewrite Hdeg, Hadj by done.
    rewrite (remaining_snoc done n) by done. lia. }
  destruct (relax_fold (adjacency_of adjacency n) in_degree queue)
    as (in_degree' & added & Hfold & Hdeg' & Hnd' & Hin').
  { intros m Hm. apply adjacency_elem, edge_key in Hm.
    rewrite (Hrem m Hm). lia. }
  exists in_degree', added. split.
  { unfold pop_one. by rewrite Hfold. }
  assert (Hadded : ∀ m, m ∈ added ↔
    edge g m n ∧ Forall (.∈ done ++ [n]) (deps_of g m)).
  { intros m. rewrite Hin', adjacency_elem. split.
    - intros [He Hc]. split; [done|]. apply remaining_zero.
      pose proof (Hrem m (edge_key _ _ _ He)). lia.
    - intros [He Hall]. split; [done|]. apply remaining_zero in Hall.
      rewrite (Hrem m (edge_key _ _ _ He)). lia. }
  split.
  - rewrite <- app_assoc. simpl. rewrite app_comm_cons, app_assoc.
    apply NoDup_app. split_and!; [done | | done].
    intros m Hm Hm'. apply Hadded in Hm' as [He Hall].
    apply Hready in Hm; [|by eapply edge_key].
    rewrite Forall_forall in Hm. apply Hn, Hm, He.
  - intros m. rewrite <- app_assoc. simpl.
    rewrite app_comm_cons, app_assoc, elem_of_app.
    intros [?|[He _]%Hadded]; [by apply Hkeys | by eapply edge_key].
  - intros m Hm. rewrite Hdeg', (Hrem m Hm). lia.
  - intros m Hm. rewrite <- app_assoc. simpl.
    rewrite app_comm_cons, app_assoc, elem_of_app, Hadded, (Hready m Hm).
    split.
    + intros [Hall|[_ Hall]]; [|done].
        eapply Forall_impl; [done|]. intros x Hx. apply elem_of_app. by left.
    + intros Hall. destruct (decide (n ∈ deps_of g m)) as [He|He].
      * by right.
      * left. rewrite Forall_forall in Hall |- *. intros x Hx.
        specialize (Hall x Hx). apply elem_of_app in Hall as [?|Hxn]; [done|].
        apply list_elem_of_singleton in Hxn as ->. done.
Qed.

Lemma process_level_inv k : ∀ in_degree done queue,
  k ≤ length queue →
  kahn_inv g in_degree done queue →
  ∃ in_degree' added,
    Nat.iter k (pop_one adjacency) (in_degree, queue, [])
    = (in_degree', drop k queue ++ added, take k queue)
    ∧ kahn_inv g in_degree' (done ++ take k queue) (drop k queue ++ added).
Proof.
  induction k as [|k IH]; intros in_degree done queue Hk Hinv.
  - exists in_degree, []. simpl. rewrite drop_0, take_0, !app_nil_r. done.
  - destruct (IH in_degree done queue) as (in_degree1 & added1 & Hiter & Hinv1);
      [lia | done |].
    destruct (lookup_lt_is_Some_2 queue k) as [n Hn]; [lia|].
    rewrite Nat.iter_succ, Hiter.
    rewrite (drop_S _ _ _ Hn) in Hinv1 |- *.
    rewrite <- app_comm_cons in Hinv1 |- *.
    destruct (pop_one_inv _ _ _ _ (take k queue) Hinv1)
      as (in_degree' & added & Hpop & Hinv').
    exists in_degree', (added1 ++ added).
    rewrite Hpop, (take_S_r _ _ _ Hn), !app_assoc. split; [done|].
    by rewrite <- !app_assoc in Hinv' |- *.
Qed.

Lemma level_loop_spec fuel : ∀ in_degree queue levels,
  kahn_inv g in_degree (concat levels) queue →
  levels_ordered g levels →
  length (dict_keys g) < fuel + length (concat levels) →
  ∃ levels' in_degree',
    level_loop fuel adjacency in_degree queue levels = Some levels'
    ∧ kahn_inv g in_degree' (concat levels') []
    ∧ levels_ordered g levels'.
Proof.
  induction fuel as [|fuel IH]; intros in_degree queue levels Hinv Hord Hfuel.
  - exfalso. destruct Hinv as [Hnd Hkeys _ _].
    apply NoDup_app in Hnd as (Hnd & _ & _).
    assert (length (concat levels) ≤ length (dict_keys g)); [|lia].
    apply NoDup_incl_length; [done|]. intros x Hx. apply Hkeys, elem_of_app.
    by left.
  - destruct queue as [|n queue]; [by exists levels, in_degree|].
    cbn [level_loop].
    destruct (process_level_inv (length (n :: queue)) in_degree
                (concat levels) (n :: queue))
      as (in_degree1 & added & Hiter & Hinv1); [lia | done |].
    rewrite Hiter. rewrite drop_all, take_ge in Hinv1 |- * by lia.
    simpl in Hinv1 |- *.
    apply IH.
    + by rewrite concat_app; simpl; rewrite app_nil_r.
    + intros i l t d Hl Ht He.
      apply lookup_snoc_Some in Hl as [[Hi Hl]|[-> <-]].
      * destruct (Hord i l t d Hl Ht He) as (j & l' & Hj & Hl' & Hd).
        exists j, l'. split_and!; [done | | done].
        by rewrite lookup_app_l by lia.
      * destruct Hinv as [_ Hkeys _ Hready].
        assert (Hall : Forall (.∈ concat levels) (deps_of g t)).
        { apply Hready; [by eapply edge_key | by apply elem_of_app; right]. }
        rewrite Forall_forall in Hall. apply Hall in He.
        apply elem_of_concat_lookup in He as (j & l' & Hl' & Hd).
        exists j, l'. split_and!; [by eapply lookup_lt_Some | | done].
        rewrite lookup_app_l; [done | by eapply lookup_lt_Some].
    + rewrite concat_app, length_app. simpl. lia.
Qed.
End Kahn.

(** ** The leveler: what [_topological_sort] returns *)

Lemma filter_not_in_nil (l : list key) : filter (.∉ []) l = l.
Proof.
  induction l as [|x l IH]; [done|].
  rewrite filter_cons, decide_True by apply not_elem_of_nil. by rewrite IH.
Qed.

Lemma topological_sort_spec g :
  NoDup (dict_keys g) →
  ∃ levels,
    _topological_sort g = Some levels
    ∧ levels_ordered g levels
    ∧ NoDup (concat levels)
    ∧ (∀ n, n ∈ concat levels → n ∈ dict_keys g)
    ∧ (∀ n, n ∈ dict_keys g →
         (n ∈ concat levels ↔ Forall (.∈ concat levels) (deps_of g n))).
Proof.
  intros Hnd. unfold _topological_sort.
  destruct (build_degrees g) as [in_degree adjacency] eqn:Hbuild.
  apply build_degrees_spec in Hbuild as [Hdeg Hadj]; [|done].
  set (queue := filter (λ n, in_degree_of in_degree n = 0%Z) (dict_keys g)).
  destruct (level_loop_spec g adjacency Hadj (S (length g)) in_degree queue [])
    as (levels & in_degree' & Hloop & [Hnd' Hkeys _ Hready] & Hord).
  - split; simpl.
    + by apply NoDup_filter.
    + intros n [_ ?]%list_elem_of_filter. done.
    + intros n _. by rewrite Hdeg, filter_not_in_nil.
    + intros n Hn. unfold queue. rewrite list_elem_of_filter, Hdeg.
      destruct (deps_of g n) as [|d ds]; simpl.
      * split; [constructor | done].
      * split; [intros [? _]; lia|].
        intros [[]%elem_of_nil _]%Forall_cons.
  - intros i l t d Hl. by rewrite lookup_nil in Hl.
  - simpl. unfold dict_keys. rewrite length_fmap. lia.
  - exists levels. rewrite app_nil_r in Hnd', Hkeys, Hready. done.
Qed.

Lemma at_level_concat levels t : t ∈ concat levels ↔ ∃ i, at_level levels t i.
Proof. apply elem_of_concat_lookup. Qed.

Lemma at_level_unique levels t i j :
  NoDup (concat levels) → at_level levels t i → at_level levels t j → i = j.
Proof.
  revert i j. induction levels as [|l0 levels IH]; intros i j Hnd (l & Hl & Ht) (l' & Hl' & Ht').
  - by rewrite lookup_nil in Hl.
  - simpl in Hnd. apply NoDup_app in Hnd as (_ & Hdisj & Hnd).
    destruct i as [|i], j as [|j]; simpl in Hl, Hl'; simplify_eq; [done | | |].
    + exfalso. apply (Hdisj t Ht). apply elem_of_concat_lookup. eauto.
    + exfalso. apply (Hdisj t Ht'). apply elem_of_concat_lookup. eauto.
    + f_equal. apply IH; [done | by exists l | by exists l'].
Qed.

(** ** Cycles and chains *)

Lemma is_chain_tail g a c : is_chain g (a :: c) → is_chain g c.
Proof. destruct c; simpl; tauto. Qed.

Lemma chain_reaches g a c x : is_chain g (a :: c) → x ∈ c → tc (edge g) a x.
Proof.
  revert a. induction c as [|b c IH]; intros a Hc Hx; [by apply elem_of_nil in Hx|].
  destruct Hc as [Hab Hc]. apply elem_of_cons in Hx as [->|Hx].
  - by apply tc_once.
  - eapply tc_l; [done|]. by apply IH.
Qed.

Lemma chain_dup_cycle g c : is_chain g c → ¬ NoDup c → ∃ x, tc (edge g) x x.
Proof.
  induction c as [|a c IH]; intros Hc Hdup; [destruct Hdup; constructor|].
  destruct (decide (a ∈ c)) as [Ha|Ha].
  - exists a. by eapply chain_reaches.
  - apply IH; [by eapply is_chain_tail|]. intros Hnd. apply Hdup. by constructor.
Qed.

Lemma ranked_acyclic rank g : ranked_by rank g = true → acyclic g.
Proof.
  intros Hr.
  assert (Hedge : ∀ t d, edge g t d → rank d < rank t).
  { unfold edge, deps_of, ranked_by in *. rewrite forallb_forall in Hr.
    intros t d Hd. destruct (dict_get g t) as [data|] eqn:Hget;
      [|by apply elem_of_nil in Hd].
    assert (Hin : In (t, data) g).
    { clear -Hget. induction g as [|[k v] g IH]; simpl in *; [done|].
      case_decide; simplify_eq; auto. }
    apply Hr in Hin. rewrite forallb_forall in Hin.
    apply list_elem_of_In, Hin, Nat.ltb_lt in Hd. done. }
  assert (Htc : ∀ a b, tc (edge g) a b → rank b < rank a).
  { induction 1 as [a b Hab|a b c Hab _ IH]; [by apply Hedge|].
    apply Hedge in Hab. lia. }
  intros n Hn%Htc. lia.
Qed.

Lemma closedb_closed g : closedb g = true → closed g.
Proof.
  unfold closedb, closed, edge, deps_of. generalize (dict_keys g) as ks.
  intros ks Hc t d Hd. rewrite forallb_forall in Hc.
  destruct (dict_get g t) as [data|] eqn:Hget; [|by apply elem_of_nil in Hd].
  assert (Hin : In (t, data) g).
  { clear -Hget. induction g as [|[k v] g IH]; simpl in *; [done|].
    case_decide; simplify_eq; auto. }
  apply Hc in Hin. rewrite forallb_forall in Hin.
  apply list_elem_of_In, Hin, bool_decide_eq_true in Hd. done.
Qed.

Lemma unfinished_descent g (done : list key) :
  closed g →
  (∀ n, n ∈ dict_keys g → n ∈ done → Forall (.∈ done) (deps_of g n)) →
  (∀ n, n ∈ dict_keys g → Forall (.∈ done) (deps_of g n) → n ∈ done) →
  ∀ k n, n ∈ dict_keys g → n ∉ done →
    ∃ c, length c = S k ∧ head c = Some n ∧ is_chain g c
         ∧ Forall (λ x, x ∈ dict_keys g) c.
Proof.
  intros Hclosed _ Hready. induction k as [|k IH]; intros n Hn Hnot.
  - exists [n]. split_and!; [done..|]. by constructor.
  - assert (Hex : Exists (λ d, d ∉ done) (deps_of g n)).
    { apply not_Forall_Exists; [apply _|]. intros Hall. by apply Hnot, Hready. }
    apply Exists_exists in Hex as (d & Hd & Hdnot).
    destruct (IH d) as (c & Hlen & Hhead & Hchain & Hall); [by eapply Hclosed | done |].
    exists (n :: c). split_and!; [simpl; lia | done | | by constructor].
    destruct c as [|b c]; [done|]. simpl in Hhead. simplify_eq. by split.
Qed.

Lemma acyclic_all_finished g (done : list key) :
  acyclic g → closed g →
  (∀ n, n ∈ dict_keys g → (n ∈ done ↔ Forall (.∈ done) (deps_of g n))) →
  ∀ n, n ∈ dict_keys g → n ∈ done.
Proof.
  intros Hacyc Hclosed Hready n Hn.
  destruct (decide (n ∈ done)) as [|Hnot]; [done|]. exfalso.
  destruct (unfinished_descent g done Hclosed) with (k := length (dict_keys g)) (n := n)
    as (c & Hlen & _ & Hchain & Hall); [by intros; apply Hready.. | done | done |].
  destruct (chain_dup_cycle g c Hchain) as [x Hx]; [|by apply (Hacyc x)].
  intros Hnd. rewrite Forall_forall in Hall.
  pose proof (NoDup_incl_length c (dict_keys g) Hnd Hall). lia.
Qed.

Lemma cycle_member_step g a b : tc (edge g) a b → ∃ d, edge g a d.
Proof. destruct 1; eauto. Qed.

(** ** The critical-path search terminates *)

Lemma foldM_opt_is_Some {A B : Type} (f : B → A → option B) (l : list A) :
  (∀ b x, x ∈ l → is_Some (f b x)) → ∀ b, is_Some (foldM_opt f b l).
Proof.
  induction l as [|x l IH]; intros Hf b; simpl; [by eexists|].
  destruct (Hf b x) as [b' ->]; [left|]. apply IH. intros; apply Hf. by right.
Qed.

Lemma unvisited_shrinks (visited : gset key) n (l : list key) :
  n ∈ l → n ∉ visited →
  length (filter (.∉ {[n]} ∪ visited) l) < length (filter (.∉ visited) l).
Proof.
  intros Hn Hv. induction l as [|x l IH]; [by apply elem_of_nil in Hn|].
  assert (Hle : ∀ l' : list key,
    length (filter (.∉ {[n]} ∪ visited) l') ≤ length (filter (.∉ visited) l')).
  { clear. induction l' as [|y l' IH']; [done|]. rewrite !filter_cons.
    destruct (decide (y ∉ {[n]} ∪ visited)) as [Hy|Hy].
    - rewrite decide_True by (intros ?; apply Hy; apply elem_of_union; by right).
      simpl. lia.
    - case_decide; simpl; lia. }
  rewrite !filter_cons. destruct (decide (x = n)) as [->|Hne].
  - rewrite decide_False by (intros Hc; apply Hc, elem_of_union; left; by apply elem_of_singleton).
    rewrite decide_True by done. simpl. specialize (Hle l). lia.
  - apply elem_of_cons in Hn as [->|Hn]; [done|]. specialize (IH Hn).
    destruct (decide (x ∉ visited)) as [Hx|Hx].
    + rewrite decide_True; [simpl; lia|].
      intros [?%elem_of_singleton|?]%elem_of_union; done.
    + rewrite decide_False; [lia|].
      intros Hc. apply Hx. intros ?. apply Hc, elem_of_union. by right.
Qed.

Lemma dfs_total g fuel : ∀ n (visited : gset key) path,
  length (filter (.∉ visited) (dict_keys g)) < fuel →
  is_Some (dfs fuel g n visited path).
Proof.
  induction fuel as [|fuel IH]; intros n visited path Hfuel; [lia|].
  cbn [dfs]. destruct (decide (n ∈ visited)) as [|Hnv]; [by eexists|].
  destruct (dict_get g n) as [data|] eqn:Hget; [|by eexists].
  match goal with
  | |- is_Some (match ?x with _ => _ end) => assert (Hs : is_Some x)
  end.
  { apply foldM_opt_is_Some. intros longest dep _. case_decide; [by eexists|].
    destruct (IH dep ({[n]} ∪ visited) []) as [p ->]; [|by eexists].
    apply dict_get_Some_keys in Hget.
    pose proof (unvisited_shrinks visited n (dict_keys g) Hget Hnv). lia. }
  destruct Hs as [p ->]. by eexists.
Qed.

Lemma find_critical_path_total g : is_Some (_find_critical_path g).
Proof.
  apply foldM_opt_is_Some. intros longest n _.
  destruct (dfs_total g (S (length g)) n ∅ []) as [p ->]; [|by eexists].
  apply Nat.lt_succ_r. etransitivity; [apply length_filter|].
  unfold dict_keys. by rewrite length_fmap.
Qed.

(** ** [analyze_features]: the graph and the id lists it builds *)

Lemma analyze_loop_spec features : ∀ g indep dep,
  fold_left analyze_step features (g, indep, dep)
  = (add_features g features,
     indep ++ (feature_id <$> filter independent features),
     dep ++ (feature_id <$> filter (λ f, ¬ independent f) features)).
Proof.
  induction features as [|f features IH]; intros g indep dep.
  - simpl. by rewrite !app_nil_r.
  - cbn [fold_left add_features].
    destruct (analyze_step (g, indep, dep) f) as [[g1 i1] d1] eqn:E1.
    rewrite IH. unfold analyze_step in E1. rewrite !filter_cons.
    destruct (decide (independent f)) as [Hi|Hi].
    + rewrite decide_False by auto. unfold independent in Hi.
      rewrite Hi in E1. simplify_eq. simpl. by rewrite <- app_assoc.
    + rewrite decide_True by done. unfold independent in Hi.
      destruct (feature_dependencies f); [done|].
      simplify_eq. simpl. by rewrite <- app_assoc.
Qed.

Lemma add_features_NoDup features : ∀ g,
  NoDup (dict_keys g) → NoDup (dict_keys (add_features g features)).
Proof.
  induction features as [|f features IH]; intros g Hg; [done|].
  simpl. by apply IH, dict_set_NoDup.
Qed.

Lemma analyze_features_spec self features :
  ∃ cp,
    _find_critical_path (add_features (dependency_graph self) features) = Some cp
    ∧ analyze_features self features
      = Some ({| max_processes := max_processes self;
                 dependency_graph := add_features (dependency_graph self) features;
                 resource_allocation := resource_allocation self |},
              {| total_features := length features;
                 an_dependency_graph :=
                   add_features (dependency_graph self) features;
                 independent_features :=
                   feature_id <$> filter independent features;
                 dependent_features :=
                   feature_id <$> filter (λ f, ¬ independent f) features;
                 critical_path := cp;
                 parallelism_score :=
                   if decide (0 < length features)
                   then (inject_Z (Z.of_nat (length (filter independent features)))
                         / inject_Z (Z.of_nat (length features)))%Q
                   else 0%Q |}).
Proof.
  destruct (find_critical_path_total (add_features (dependency_graph self) features))
    as [cp Hcp].
  exists cp. split; [done|].
  unfold analyze_features. rewrite analyze_loop_spec, Hcp. simpl.
  by rewrite length_fmap.
Qed.

Lemma analyze_features_graph self features self' a :
  analyze_features self features = Some (self', a) →
  dependency_graph self' = add_features (dependency_graph self) features
  ∧ max_processes self' = max_processes self
  ∧ resource_allocation self' = resource_allocation self.
Proof.
  destruct (analyze_features_spec self features) as (cp & _ & ->).
  by intros [= <- <-].
Qed.

Lemma analyze_features_wf self features self' a :
  planner_wf self → analyze_features self features = Some (self', a) →
  planner_wf self'.
Proof.
  unfold planner_wf. intros Hwf (-> & _)%analyze_features_graph.
  by apply add_features_NoDup.
Qed.

(** ** Planning runs *)

Lemma create_parallel_tracks_spec self features :
  planner_wf self →
  ∃ self' a levels,
    analyze_features self features = Some (self', a)
    ∧ dependency_graph self' = add_features (dependency_graph self) features
    ∧ _topological_sort (dependency_graph self') = Some levels
    ∧ create_parallel_tracks self features = Some (self', plan_of self' a levels).
Proof.
  intros Hwf.
  destruct (analyze_features_spec self features) as (cp & _ & Ha).
  destruct (topological_sort_spec (add_features (dependency_graph self) features))
    as (levels & Hsort & _); [by apply add_features_NoDup|].
  eexists _, _, levels. split; [exact Ha|]. split; [done|]. split; [exact Hsort|].
  unfold create_parallel_tracks. rewrite Ha. simpl. by rewrite Hsort.
Qed.

Lemma group_into_tracks_elem levels tr :
  tr ∈ _group_into_tracks levels →
  ∃ i, levels !! i = Some (t_features tr) ∧ t_level tr = i.
Proof.
  intros (i & l & -> & Hl)%elem_of_lookup_imap_1. exists i.
  unfold make_track. by case_decide.
Qed.

Lemma cycle_step g t : tc (edge g) t t → ∃ d, edge g t d ∧ tc (edge g) d d.
Proof.
  inversion 1 as [? ? Htt|? d ? Htd Hdt]; subst.
  - exists t. split; [done | by apply tc_once].
  - exists d. split; [done | by eapply tc_r].
Qed.

Lemma cyclic_not_leveled g levels :
  levels_ordered g levels → ∀ i t, tc (edge g) t t → ¬ at_level levels t i.
Proof.
  intros Hord i. induction (lt_wf i) as [i _ IH].
  intros t (d & Htd & Hdd)%cycle_step (l & Hl & Ht).
  destruct (Hord i l t d Hl Ht Htd) as (j & l' & Hj & Hl' & Hd).
  apply (IH j Hj d Hdd). by exists l'.
Qed.

(** C1. For an acyclic task set in which every referenced dependency exists,
    planning succeeds, every task is a member of exactly one level, and the
    level index of a task is strictly greater than the level index of each
    of its dependencies. *)
Theorem C1_levels_respect_dependencies self features :
  planner_wf self →
  acyclic (add_features (dependency_graph self) features) →
  closed (add_features (dependency_graph self) features) →
  ∃ self' r levels,
    create_parallel_tracks self features = Some (self', r)
    ∧ _topological_sort (dependency_graph self') = Some levels
    ∧ r_tracks r = _group_into_tracks levels
    ∧ (∀ t, t ∈ dict_keys (dependency_graph self') → ∃ i, at_level levels t i)
    ∧ (∀ t i j, at_level levels t i → at_level levels t j → i = j)
    ∧ (∀ t d i j, edge (dependency_graph self') t d →
         at_level levels t i → at_level levels d j → j < i).
Proof.
  intros Hwf Hacyc Hclosed.
  destruct (create_parallel_tracks_spec self features Hwf)
    as (self' & a & levels & Ha & Hg & Hsort & Hrun).
  rewrite <- Hg in Hacyc, Hclosed.
  destruct (topological_sort_spec (dependency_graph self'))
    as (levels' & Hsort' & Hord & Hnd & Hsub & Hready).
  { eapply analyze_features_wf; eauto. }
  rewrite Hsort in Hsort'. injection Hsort' as <-.
  exists self', (plan_of self' a levels), levels.
  split_and!; [done.. | | |].
  - intros t Ht. apply at_level_concat.
    by apply (acyclic_all_finished (dependency_graph self')).
  - intros t i j. by apply at_level_unique.
  - intros t d i j He (l & Hl & Ht) Hd.
    destruct (Hord i l t d Hl Ht He) as (j' & l' & Hj' & Hl' & Hd').
    assert (j = j') as ->; [|done].
    eapply at_level_unique; [done.. |]. by exists l'.
Qed.

Lemma C1_levels_respect_dependencies_witness :
  ∃ self' r levels,
    create_parallel_tracks (__init__ 1000) sample_features = Some (self', r)
    ∧ _topological_sort (dependency_graph self') = Some levels
    ∧ r_tracks r = _group_into_tracks levels
    ∧ (∀ t, t ∈ dict_keys (dependency_graph self') → ∃ i, at_level levels t i)
    ∧ (∀ t i j, at_level levels t i → at_level levels t j → i = j)
    ∧ (∀ t d i j, edge (dependency_graph self') t d →
         at_level levels t i → at_level levels d j → j < i).
Proof.
  apply (C1_levels_respect_dependencies (__init__ 1000) sample_features).
  - apply NoDup_nil_2.
  - apply (ranked_acyclic (position sample_order)). vm_compute. reflexivity.
  - apply closedb_closed. vm_compute. reflexivity.
Defined.

(** The levels of the sample task set of the source's [__main__] block. *)
Example sample_levels :
  _topological_sort (add_features [] sample_features)
  = Some [ Some <$> ["auth"; "analytics"; "seo"; "roulette"];
           Some <$> ["profile"; "payments"];
           Some <$> ["dashboard"; "social"] ]%string.
Proof. vm_compute. reflexivity. Qed.







(** ** The critical path of an acyclic graph *)

Lemma is_chain_cons g a b c : is_chain g (a :: b :: c) ↔ edge g a b ∧ is_chain g (b :: c).
Proof. done. Qed.

Lemma dfs_deps_longest (g : dict key node) (fuel : nat)
    (visited : gset key) (deps : list key) :
  dfs_ok g fuel →
  ∀ l acc res,
    (∀ d, d ∈ l → d ∈ deps ∧ ∀ x, rtc (edge g) d x → x ∉ visited) →
    (acc = [] ∨ ∃ d, d ∈ deps ∧ head acc = Some d ∧ is_chain g acc) →
    foldM_opt
      (λ longest_subpath dep,
         if decide (dep ∈ visited) then Some longest_subpath
         else
           match dfs fuel g dep visited [] with
           | Some subpath =>
               Some (if decide (length longest_subpath < length subpath)
                     then subpath else longest_subpath)
           | None => None
           end)
      acc l = Some res →
    (res = [] ∨ ∃ d, d ∈ deps ∧ head res = Some d ∧ is_chain g res)
    ∧ length acc ≤ length res
    ∧ ∀ d c, d ∈ l → head c = Some d → is_chain g c → length c ≤ length res.
Proof.
  intros Hok. induction l as [|d l IH]; intros acc res Hl Hacc; simpl.
  - intros [= <-]. split_and!; [done..|]. by intros d c ?%elem_of_nil.
  - destruct (Hl d) as [Hd Hreach]; [left|].
    rewrite decide_False by (apply Hreach; done).
    destruct (dfs fuel g d visited []) as [sub|] eqn:Hdfs; [|done].
    destruct (Hok d visited sub Hreach Hdfs) as (Hhead & Hchain & Hmax).
    intros Hres. apply IH in Hres as (Hres & Hlen & Hall).
    + split_and!; [done | case_decide; lia |].
      intros d' c [->|Hd']%elem_of_cons Hc1 Hc2; [|by eapply Hall].
      specialize (Hmax c Hc1 Hc2). case_decide; lia.
    + intros d' Hd'. apply Hl. by right.
    + case_decide; [right; eauto | done].
Qed.

Lemma dfs_longest g : acyclic g → ∀ fuel, dfs_ok g fuel.
Proof.
  intros Hacyc. induction fuel as [|fuel IH]; intros n visited p Hreach; [done|].
  cbn [dfs]. rewrite decide_False by (apply Hreach; done). simpl.
  destruct (dict_get g n) as [data|] eqn:Hget.
  - match goal with
    | |- match ?x with _ => _ end = _ → _ => destruct x as [longest|] eqn:Hfold
    end; [|done].
    intros [= <-].
    assert (Hdeps : deps_of g n = dependencies data) by (unfold deps_of; by rewrite Hget).
    eapply (dfs_deps_longest g fuel _ (dependencies data)) in Hfold
      as (Hlongest & _ & Hmax); [| done | | by left].
    + split_and!; [done | |].
      * destruct Hlongest as [->|(d & Hd & Hhead & Hchain)]; [done|].
        destruct longest as [|b longest]; [done|]. simpl in Hhead. simplify_eq.
        apply is_chain_cons. split; [|done]. unfold edge. by rewrite Hdeps.
      * intros [|a [|b c]] Hc1 Hc2; simpl in *; [done | lia |].
        simplify_eq. destruct Hc2 as [Hab Hc2].
        unfold edge in Hab. rewrite Hdeps in Hab.
        specialize (Hmax b (b :: c) Hab eq_refl Hc2). simpl in Hmax. lia.
    + intros d Hd. split; [done|]. intros x Hx.
      assert (Hnd : edge g n d) by (unfold edge; by rewrite Hdeps).
      intros [->%elem_of_singleton|Hv]%elem_of_union.
      * apply (Hacyc n). eapply tc_rtc_r; [by apply tc_once | done].
      * apply (Hreach x); [|done]. by eapply rtc_l.
  - intros [= <-]. split_and!; [done..|].
    intros [|a [|b c]] Hc1 Hc2; simpl in *; [done | lia |].
    simplify_eq. destruct Hc2 as [Hab _]. unfold edge, deps_of in Hab.
    rewrite Hget in Hab. by apply elem_of_nil in Hab.
Qed.

Lemma find_critical_path_longest g cp :
  acyclic g → _find_critical_path g = Some cp →
  chain_of g cp ∧ ∀ c, chain_of g c → length c ≤ length cp.
Proof.
  intros Hacyc. unfold _find_critical_path.
  pose proof (dfs_longest g Hacyc (S (length g))) as Hok.
  assert (Hgen : ∀ l acc res,
    (∀ n, n ∈ l → n ∈ dict_keys g) → chain_of g acc →
    foldM_opt
      (λ longest_path n,
         match dfs (S (length g)) g n ∅ [] with
         | Some path =>
             Some (if decide (length longest_path < length path)
                   then path else longest_path)
         | None => None
         end) acc l = Some res →
    chain_of g res ∧ length acc ≤ length res
    ∧ ∀ n c, n ∈ l → head c = Some n → is_chain g c → length c ≤ length res).
  { induction l as [|n l IH]; intros acc res Hl Hacc; cbn [foldM_opt].
    - intros [= <-]. split_and!; [done..|]. by intros n c ?%elem_of_nil.
    - destruct (dfs (S (length g)) g n ∅ []) as [path|] eqn:Hdfs; [|done].
      destruct (Hok n ∅ path) as (Hhead & Hchain & Hmax); [intros x _; apply not_elem_of_empty | done |].
      intros Hres. apply IH in Hres as (Hres & Hlen & Hall).
      + split_and!; [done | case_decide; lia |].
        intros n' c [->|Hn']%elem_of_cons Hc1 Hc2; [|by eapply Hall].
        specialize (Hmax c Hc1 Hc2). case_decide; lia.
      + intros n' Hn'. apply Hl. by right.
      + case_decide; [|done]. split; [done|].
        intros x Hx. rewrite Hhead in Hx. simplify_eq. apply Hl. left. }
  intros Hfold. apply Hgen in Hfold as (Hcp & _ & Hall); [| done | by split].
  split; [done|]. intros [|x c] [Hc1 Hc2]; [simpl; lia|].
  apply (Hall x); [by apply Hc2 | done | done].
Qed.

(** C5. On an acyclic task set the analysis returns a critical path that
    is a dependency chain of the graph (each id lists the next one as a
    dependency), and no dependency chain of the graph has more ids. *)
Theorem C5_critical_path_is_longest_chain self features :
  acyclic (add_features (dependency_graph self) features) →
  ∃ self' a,
    analyze_features self features = Some (self', a)
    ∧ chain_of (dependency_graph self') (critical_path a)
    ∧ ∀ c, chain_of (dependency_graph self') c →
        length c ≤ length (critical_path a).
Proof.
  intros Hacyc.
  destruct (analyze_features_spec self features) as (cp & Hcp & Ha).
  eexists _, _. split; [exact Ha|]. simpl.
  by apply find_critical_path_longest.
Qed.

Lemma C5_critical_path_is_longest_chain_witness :
  ∃ self' a,
    analyze_features (__init__ 1000) sample_features = Some (self', a)
    ∧ chain_of (dependency_graph self') (critical_path a)
    ∧ ∀ c, chain_of (dependency_graph self') c →
        length c ≤ length (critical_path a).
Proof.
  apply (C5_critical_path_is_longest_chain (__init__ 1000) sample_features).
  apply (ranked_acyclic (position sample_order)). vm_compute. reflexivity.
Defined.

Example sample_critical_path :
  _find_critical_path (add_features [] sample_features)
  = Some (Some <$> ["dashboard"; "profile"; "auth"]%string).
Proof. vm_compute. reflexivity. Qed.

(** ** The parallelism score *)

Lemma ratio_in_unit_interval (n m : nat) :
  n ≤ m → 0 < m →
  (0 <= inject_Z (Z.of_nat n) / inject_Z (Z.of_nat m))%Q
  ∧ (inject_Z (Z.of_nat n) / inject_Z (Z.of_nat m) <= 1)%Q.
Proof.
  intros Hnm Hm.
  assert (Hpos : (0 < inject_Z (Z.of_nat m))%Q).
  { change 0%Q with (inject_Z 0). rewrite <- Zlt_Qlt. lia. }
  split.
  - apply Qle_shift_div_l; [done|]. rewrite Qmult_0_l.
    change 0%Q with (inject_Z 0). rewrite <- Zle_Qle. lia.
  - apply Qle_shift_div_r; [done|]. rewrite Qmult_1_l.
    rewrite <- Zle_Qle. lia.
Qed.

(** C6. The analysis reports the number of features without dependencies
    divided by the number of features; the score lies in [0, 1] and is 0
    for the empty task set. *)
Theorem C6_parallelism_score self features :
  ∃ self' a,
    analyze_features self features = Some (self', a)
    ∧ independent_features a = feature_id <$> filter independent features
    ∧ (features ≠ [] →
         parallelism_score a
         = (inject_Z (Z.of_nat (length (independent_features a)))
            / inject_Z (Z.of_nat (length features)))%Q)
    ∧ (features = [] → parallelism_score a = 0%Q)
    ∧ (0 <= parallelism_score a)%Q
    ∧ (parallelism_score a <= 1)%Q.
Proof.
  destruct (analyze_features_spec self features) as (cp & _ & Ha).
  eexists _, _. split; [exact Ha|]. simpl. split; [done|].
  destruct features as [|f features].
  - split_and!; done.
  - rewrite decide_True by (simpl; lia). rewrite length_fmap.
    split_and!; [done | done | |];
      apply ratio_in_unit_interval; try (simpl; lia); apply length_filter.
Qed.

Example sample_parallelism_score :
  parallelism_score <$> (snd <$> analyze_features (__init__ 1000) sample_features)
  = Some (4 # 8)%Q.
Proof. vm_compute. reflexivity. Qed.

(** ** The execution plan *)

Lemma make_track_kind i level :
  (t_can_parallel (make_track i level) = false
   ∧ t_type (make_track i level) = "sequential"%string)
  ∨ (t_can_parallel (make_track i level) = true
     ∧ t_type (make_track i level) = "parallel"%string).
Proof. unfold make_track. case_decide; simpl; auto. Qed.

Lemma group_into_tracks_kind levels tr :
  tr ∈ _group_into_tracks levels →
  (t_can_parallel tr = false ↔ t_type tr = "sequential"%string).
Proof.
  intros (i & l & -> & _)%elem_of_lookup_imap_1.
  destruct (make_track_kind i l) as [[-> ->]|[-> ->]]; split; done.
Qed.

Lemma Qsum_cons x l : Qsum (x :: l) = (x + Qsum l)%Q.
Proof. done. Qed.

Lemma Qsum_app l1 l2 : (Qsum (l1 ++ l2) == Qsum l1 + Qsum l2)%Q.
Proof.
  induction l1 as [|x l1 IH]; [simpl; ring|].
  rewrite <- app_comm_cons, !Qsum_cons, IH. ring.
Qed.

Lemma plan_fold self allocation tracks : ∀ plan0 t0,
  ∃ steps t,
    fold_left (plan_step_of self allocation) tracks (plan0, t0)
    = (plan0 ++ steps, t)
    ∧ Forall2 step_matches steps tracks
    ∧ (∀ i s, steps !! i = Some s →
         (s_start_time s
          == t0 + Qsum (s_duration
                        <$> filter (λ s, s_can_parallel s = false) (take i steps)))%Q)
    ∧ (t == t0 + Qsum (s_duration
                       <$> filter (λ s, s_can_parallel s = false) steps))%Q.
Proof.
  induction tracks as [|tr tracks IH]; intros plan0 t0.
  - exists [], t0. rewrite app_nil_r. split_and!; [done | constructor | |].
    + intros i s Hs. by rewrite lookup_nil in Hs.
    + simpl. ring.
  - cbn [fold_left].
    set (step := make_step self allocation plan0 t0 tr).
    set (t1' := if t_can_parallel tr then t0 else (t0 + s_duration step)%Q).
    change (plan_step_of self allocation (plan0, t0) tr)
      with (plan0 ++ [step], t1').
    destruct (IH (plan0 ++ [step]) t1') as (steps & t & Hfold & Hmatch & Hstart & Ht).
    exists (step :: steps), t. rewrite Hfold, <- app_assoc. split_and!; [done | | |].
    + constructor; [by split_and! | done].
    + intros [|i] s Hs; simpl in Hs.
      * simplify_eq. simpl. ring.
      * rewrite (Hstart i s Hs).
        change (take (S i) (step :: steps)) with (step :: take i steps).
        rewrite filter_cons. unfold t1'.
        destruct (t_can_parallel tr) eqn:Hp.
        -- rewrite decide_False by (simpl; by rewrite Hp). reflexivity.
        -- rewrite decide_True by (simpl; by rewrite Hp).
           rewrite fmap_cons, Qsum_cons. ring.
    + rewrite Ht, filter_cons. unfold t1'.
      destruct (t_can_parallel tr) eqn:Hp.
      * rewrite decide_False by (simpl; by rewrite Hp). reflexivity.
      * rewrite decide_True by (simpl; by rewrite Hp).
        rewrite fmap_cons, Qsum_cons. ring.
Qed.

Lemma filter_kind_flag (steps : list plan_step) :
  Forall (λ s, s_can_parallel s = false ↔ s_type s = "sequential"%string) steps →
  filter (λ s, s_can_parallel s = false) steps
  = filter (λ s, s_type s = "sequential"%string) steps.
Proof.
  induction 1 as [|s steps Hs _ IH]; [done|].
  rewrite !filter_cons, IH.
  destruct (decide (s_can_parallel s = false)) as [Hc|Hc].
  - rewrite decide_True by (by apply Hs). done.
  - rewrite decide_False by (by rewrite <- Hs). done.
Qed.

Lemma execution_plan_spec self allocation levels :
  let plan := _create_execution_plan self (_group_into_tracks levels) allocation in
  Forall2 step_matches plan (_group_into_tracks levels)
  ∧ ∀ i s, plan !! i = Some s →
      (s_start_time s == sequential_time_before plan i)%Q.
Proof.
  unfold _create_execution_plan.
  destruct (plan_fold self allocation (_group_into_tracks levels) [] 0%Q)
    as (steps & t & Hfold & Hmatch & Hstart & _).
  rewrite Hfold. simpl. split; [done|].
  intros i s Hs. rewrite (Hstart i s Hs), Qplus_0_l.
  unfold sequential_time_before. rewrite filter_kind_flag; [reflexivity|].
  apply Forall_take. rewrite Forall_forall. intros s' Hs'.
  apply list_elem_of_lookup in Hs' as [j Hj].
  destruct (Forall2_lookup_l _ _ _ _ _ Hmatch Hj) as (tr & Htr & Ht & Hc & _).
  rewrite Ht, Hc. apply (group_into_tracks_kind levels).
  by eapply list_elem_of_lookup_2.
Qed.



(** ** Durations *)

(** Every step of a plan carries the duration of its track under the teams
    allocated to that track. *)
Lemma step_duration_spec self allocation plan0 t0 tr :
  s_duration (make_step self allocation plan0 t0 tr)
  = ((total_effort (dependency_graph self) (t_features tr) * 5
      / inject_Z (s_teams (make_step self allocation plan0 t0 tr)))
     * (if t_can_parallel tr then 11 # 10 else 1))%Q.
Proof. done. Qed.

(** The total is computed from [self.resource_allocation], which no method
    ever assigns: every track is estimated with the fallback of one team. *)
Lemma estimate_step_unallocated self st tr :
  resource_allocation self = [] →
  estimate_step self st tr
  = let track_duration := _estimate_track_duration self tr one_team_entry in
    if t_can_parallel tr
    then (st.1, Qmax st.2 track_duration)
    else ((st.1 + track_duration)%Q, st.2).
Proof. intros Hra. unfold estimate_step. rewrite Hra. by destruct st. Qed.

(** C7, at the failing input (one task, default effort 5, capacity 1000):
    the only track is Sequential, it is allocated 56 teams and its duration
    in the plan is 25/56 seconds, yet the reported total duration is 25
    seconds, the duration of that track with a single team. *)
Theorem C7_total_duration_ignores_allocation :
  ∃ self' r step,
    create_parallel_tracks (__init__ 1000) single_task = Some (self', r)
    ∧ r_execution_plan r = [step]
    ∧ s_type step = "sequential"%string
    ∧ s_teams step = 56%Z
    ∧ (s_duration step == 25 # 56)%Q
    ∧ (r_estimated_duration r == 25)%Q
    ∧ ¬ (r_estimated_duration r == s_duration step)%Q.
Proof.
  eexists _, _, _. split; [vm_compute; reflexivity|].
  split; [reflexivity|]. split_and!; try reflexivity; by vm_compute.
Qed.

(** ** The allocation: one entry per track *)

Lemma dict_set_new {V : Type} (d : dict string V) k v :
  k ∉ dict_keys d → dict_set k v d = d ++ [(k, v)].
Proof.
  unfold dict_keys. induction d as [|[k' v'] d IH]; [done|].
  rewrite fmap_cons, not_elem_of_cons. intros [Hne Hk]. cbn [dict_set].
  rewrite decide_False by done. simpl. by rewrite IH.
Qed.

Lemma allocate_fold g tracks : ∀ allocation0 total0,
  NoDup (dict_keys allocation0 ++ (t_id <$> tracks)) →
  fold_left (allocate_step g) tracks (allocation0, total0)
  = (allocation0 ++ ((λ t, (t_id t, track_entry g t)) <$> tracks),
     fold_left (λ acc t, (acc + track_complexity g (t_features t))%Q)
       tracks total0).
Proof.
  induction tracks as [|t tracks IH]; intros allocation0 total0 Hnd.
  - simpl. by rewrite app_nil_r.
  - cbn [fold_left allocate_step]. rewrite fmap_cons in Hnd.
    rewrite dict_set_new.
    + rewrite IH; [by rewrite <- app_assoc|].
      unfold dict_keys in *. rewrite fmap_app, <- app_assoc. done.
    + apply NoDup_app in Hnd as (_ & Hdisj & _). intros Hin.
      apply (Hdisj _ Hin). left.
Qed.

Lemma make_track_id_inj i j l l' :
  t_id (make_track i l) = t_id (make_track j l') → i = j.
Proof.
  unfold make_track. repeat case_decide; simpl; intros Heq; simplify_eq.
  - by apply (inj pretty).
  - by apply (inj pretty).
Qed.

Lemma track_ids_NoDup levels : NoDup (t_id <$> _group_into_tracks levels).
Proof.
  apply NoDup_alt. intros i j x. unfold _group_into_tracks.
  rewrite !list_lookup_fmap, !list_lookup_imap.
  destruct (levels !! i) as [l|]; [|done].
  destruct (levels !! j) as [l'|]; [|done]. simpl.
  intros [= <-] [= Heq]. symmetry. by eapply make_track_id_inj.
Qed.

Lemma allocate_resources_spec self levels :
  _allocate_resources self (_group_into_tracks levels)
  = (λ t, (t_id t,
           assign_processes
             (total_complexity_of (dependency_graph self) (_group_into_tracks levels))
             (max_processes self - 100)
             (track_entry (dependency_graph self) t)))
    <$> _group_into_tracks levels.
Proof.
  unfold _allocate_resources. rewrite allocate_fold.
  - simpl. rewrite <- list_fmap_compose. done.
  - simpl. apply track_ids_NoDup.
Qed.

(** ** The allocation: arithmetic of the shares *)

Lemma fold_total {A : Type} (f : A → Q) (l : list A) : ∀ a,
  (fold_left (λ acc t, acc + f t) l a == a + Qsum (f <$> l))%Q.
Proof.
  induction l as [|x l IH]; intros a; cbn [fold_left].
  - rewrite fmap_nil. change (Qsum []) with 0%Q. ring.
  - rewrite fmap_cons, Qsum_cons, IH. ring.
Qed.

Lemma Qsum_nonneg (l : list Q) : Forall (λ x, 0 <= x)%Q l → (0 <= Qsum l)%Q.
Proof.
  induction 1 as [|x l Hx _ IH]; simpl; [apply Qle_refl|]. lra.
Qed.

Lemma complexity_weight_pos c : (1 ≤ complexity_weight c)%Z.
Proof. unfold complexity_weight. repeat case_decide; lia. Qed.

Lemma priority_mult_pos p : (0 < priority_mult p)%Q.
Proof. unfold priority_mult. repeat case_decide; reflexivity. Qed.

Lemma track_complexity_nonneg g features : (0 <= track_complexity g features)%Q.
Proof.
  unfold track_complexity.
  assert (H : ∀ acc, (0 <= acc)%Q →
    (0 <= fold_left
            (λ acc fid,
               match dict_get g fid with
               | Some data =>
                   (acc + inject_Z (complexity_weight (complexity data))
                          * priority_mult (priority data))%Q
               | None => acc
               end) features acc)%Q).
  { induction features as [|fid features IH]; intros acc Hacc; simpl; [done|].
    apply IH. destruct (dict_get g fid) as [data|]; [|done].
    pose proof (complexity_weight_pos (complexity data)) as Hw.
    pose proof (priority_mult_pos (priority data)) as Hp.
    assert (0 <= inject_Z (complexity_weight (complexity data)))%Q.
    { change 0%Q with (inject_Z 0). rewrite <- Zle_Qle. lia. }
    assert (0 <= inject_Z (complexity_weight (complexity data))
                 * priority_mult (priority data))%Q.
    { apply Qmult_le_0_compat; [done | by apply Qlt_le_weak]. }
    lra. }
  by apply H.
Qed.

Lemma Qtrunc_le x : (0 <= x)%Q → (inject_Z (Qtrunc x) <= x)%Q.
Proof.
  intros Hx. unfold Qtrunc. destruct x as [n d]. cbn [Qnum Qden].
  rewrite Z.quot_div_nonneg; [apply (Qfloor_le (n # d)) | | done].
  unfold Qle in Hx. simpl in *. lia.
Qed.

Lemma Qtrunc_nonpos x : (x <= 0)%Q → (Qtrunc x ≤ 0)%Z.
Proof.
  intros Hx. unfold Qtrunc. destruct x as [n d]. unfold Qle in Hx. simpl in *.
  assert (Hn : (0 ≤ - n)%Z) by lia.
  pose proof (Z.quot_pos (- n) (Z.pos d) Hn ltac:(done)) as Hq.
  rewrite Z.quot_opp_l in Hq by done. lia.
Qed.

Lemma share_sign c total available :
  (0 <= c)%Q → (0 < total)%Q →
  ((0 ≤ available)%Z → (0 <= c / total * inject_Z available)%Q)
  ∧ ((available ≤ 0)%Z → (c / total * inject_Z available <= 0)%Q).
Proof.
  intros Hc Ht.
  assert (Hr : (0 <= c / total)%Q).
  { apply Qle_shift_div_l; [done|]. lra. }
  split; intros Ha.
  - apply Qmult_le_0_compat; [done|].
    change 0%Q with (inject_Z 0). by rewrite <- Zle_Qle.
  - assert (0 <= c / total * inject_Z (- available))%Q as Hneg.
    { apply Qmult_le_0_compat; [done|].
      change 0%Q with (inject_Z 0). rewrite <- Zle_Qle. lia. }
    rewrite inject_Z_opp in Hneg.
    assert (c / total * - inject_Z available
            == - (c / total * inject_Z available))%Q as Heq by ring.
    rewrite Heq in Hneg. lra.
Qed.

Lemma process_count_teams total available e :
  ∃ teams, (1 ≤ teams)%Z
    ∧ process_count total available e = (teams * agents_per_team)%Z
    ∧ (process_count total available e / agents_per_team)%Z = teams.
Proof.
  unfold process_count, agents_per_team. destruct (Qlt_le_dec 0 total).
  - eexists. split_and!; [|reflexivity|by rewrite Z.div_mul].
    Z.div_mod_to_equations. lia.
  - exists 1%Z. split_and!; done.
Qed.

Lemma process_count_above_minimum total available e :
  process_count total available e ≠ agents_per_team →
  (0 < total)%Q
  ∧ (process_count total available e
     ≤ proportional_share (default 0%Q (a_complexity e)) total available)%Z.
Proof.
  unfold process_count, agents_per_team. destruct (Qlt_le_dec 0 total); [|done].
  intros Hne. split; [done|]. Z.div_mod_to_equations. lia.
Qed.

Lemma Zsum_split (l : list Z) :
  Zsum l
  = (agents_per_team * Z.of_nat (length (filter (.= agents_per_team) l))
     + Zsum (filter (.≠ agents_per_team) l))%Z.
Proof.
  induction l as [|x l IH]; [done|]. rewrite !filter_cons. simpl. rewrite IH.
  destruct (decide (x = agents_per_team)) as [->|Hx].
  - rewrite decide_False by auto. simpl length. lia.
  - rewrite decide_True by done. simpl. lia.
Qed.

Lemma Zsum_above_minimum {A : Type} (P : A → Z) (X : A → Q) (l : list A) :
  (∀ t, t ∈ l → 0 <= X t)%Q →
  (∀ t, t ∈ l → P t ≠ agents_per_team → inject_Z (P t) <= X t)%Q →
  (inject_Z (Zsum (filter (.≠ agents_per_team) (P <$> l))) <= Qsum (X <$> l))%Q.
Proof.
  induction l as [|t l IH]; intros Hpos Hle; [simpl; apply Qle_refl|].
  rewrite !fmap_cons, filter_cons, Qsum_cons.
  assert (IH' : (inject_Z (Zsum (filter (.≠ agents_per_team) (P <$> l)))
                 <= Qsum (X <$> l))%Q).
  { apply IH; intros; [apply Hpos | apply Hle]; try done; by right. }
  pose proof (Hpos t ltac:(left)) as Ht.
  destruct (decide (P t ≠ agents_per_team)) as [Hne|_].
  - simpl. rewrite inject_Z_plus. pose proof (Hle t ltac:(left) Hne). lra.
  - lra.
Qed.

Lemma Qsum_shares {A : Type} (f : A → Q) (total a : Q) (l : list A) :
  (Qsum ((λ t, f t / total * a) <$> l) == Qsum (f <$> l) / total * a)%Q.
Proof.
  induction l as [|t l IH].
  - rewrite !fmap_nil. change (Qsum []) with 0%Q. unfold Qdiv. ring.
  - rewrite !fmap_cons, !Qsum_cons, IH. unfold Qdiv. ring.
Qed.

Lemma length_filter_fmap {A B : Type} (f : A → B) (P : B → Prop)
    `{∀ x, Decision (P x)} (l : list A) :
  length (filter P (f <$> l)) = length (filter (λ x, P (f x)) l).
Proof.
  induction l as [|x l IH]; [done|].
  rewrite fmap_cons, !filter_cons. case_decide; simpl; by rewrite IH.
Qed.

Lemma Zsum_filter_none {A : Type} (P : A → Z) (l : list A) :
  (∀ t, t ∈ l → P t = agents_per_team) →
  Zsum (filter (.≠ agents_per_team) (P <$> l)) = 0%Z.
Proof.
  induction l as [|t l IH]; intros Hall; [done|].
  rewrite fmap_cons, filter_cons, decide_False.
  - apply IH. intros; apply Hall. by right.
  - intros Hne. apply Hne, Hall. left.
Qed.

Lemma allocation_bound self levels :
  let allocation := _allocate_resources self (_group_into_tracks levels) in
  (allocated_processes allocation
   ≤ Z.max 0 (max_processes self - 100)
     + agents_per_team * Z.of_nat (one_team_tracks allocation))%Z.
Proof.
  intros allocation. unfold allocation. rewrite allocate_resources_spec.
  set (g := dependency_graph self).
  set (ts := _group_into_tracks levels).
  set (total := total_complexity_of g ts).
  set (available := (max_processes self - 100)%Z).
  set (P := λ t, process_count total available (track_entry g t)).
  set (c := λ t, track_complexity g (t_features t)).
  assert (Hsum : allocated_processes
            ((λ t, (t_id t, assign_processes total available (track_entry g t)))
             <$> ts) = Zsum (P <$> ts)).
  { unfold allocated_processes. by rewrite <- list_fmap_compose. }
  assert (Hone : one_team_tracks
            ((λ t, (t_id t, assign_processes total available (track_entry g t)))
             <$> ts) = length (filter (.= agents_per_team) (P <$> ts))).
  { unfold one_team_tracks. by rewrite !length_filter_fmap. }
  rewrite Hsum, Hone, Zsum_split.
  assert (Zsum (filter (.≠ agents_per_team) (P <$> ts)) ≤ Z.max 0 available)%Z;
    [|lia].
  assert (Hteam : ∀ t, (agents_per_team ≤ P t)%Z).
  { intros t. destruct (process_count_teams total available (track_entry g t))
      as (teams & ? & Hp & _). unfold P. rewrite Hp. unfold agents_per_team. lia. }
  destruct (Qlt_le_dec 0 total) as [Htot|Htot]; [destruct (decide (0 ≤ available)%Z) as [Hav|Hav]|].
  - assert (Zsum (filter (.≠ agents_per_team) (P <$> ts)) ≤ available)%Z; [|lia].
    rewrite Zle_Qle.
    eapply Qle_trans;
      [apply (Zsum_above_minimum P (λ t, c t / total * inject_Z available)%Q)|].
    + intros t _. by apply share_sign; [apply track_complexity_nonneg | |].
    + intros t _ Hne.
      apply process_count_above_minimum in Hne as [_ Hle].
      rewrite Zle_Qle in Hle. eapply Qle_trans; [exact Hle|].
      apply Qtrunc_le. simpl.
      by apply share_sign; [apply track_complexity_nonneg | |].
    + rewrite Qsum_shares.
      assert (Hfold : (total == Qsum (c <$> ts))%Q).
      { unfold total, total_complexity_of.
        etransitivity; [apply (fold_total c ts 0%Q) | apply Qplus_0_l]. }
      rewrite <- Hfold. clearbody total available.
      apply Qle_lteq. right. field. intros Hz. rewrite Hz in Htot.
      by apply Qlt_irrefl in Htot.
  - rewrite Zsum_filter_none; [lia|]. intros t _.
    destruct (decide (P t = agents_per_team)) as [|Hne]; [done|]. exfalso.
    apply process_count_above_minimum in Hne as [_ Hle].
    assert (proportional_share (default 0%Q (a_complexity (track_entry g t)))
              total available ≤ 0)%Z.
    { apply Qtrunc_nonpos. simpl.
      apply share_sign; [apply track_complexity_nonneg | done | lia]. }
    specialize (Hteam t). unfold P, agents_per_team in *. lia.
  - rewrite Zsum_filter_none; [lia|]. intros t _.
    destruct (decide (P t = agents_per_team)) as [|Hne]; [done|]. exfalso.
    apply process_count_above_minimum in Hne as [Hpos _].
    by apply (Qlt_not_le _ _ Hpos).
Qed.




(** With the default capacity of 1000 the same happens for a chain of 57
    tasks: 57 tracks of one team each take 912 of the 900 available. *)
Example default_capacity_overcommits :
  (allocated_processes ∘ r_resource_allocation ∘ snd)
  <$> create_parallel_tracks (__init__ 1000) (chain_features 57)
  = Some 912%Z.
Proof. vm_compute. reflexivity. Qed.

(** ** Planning twice *)

Lemma add_features_get features : ∀ g k,
  dict_get (add_features g features) k
  = match last_entry features k with
    | Some v => Some v
    | None => dict_get g k
    end.
Proof.
  induction features as [|f features IH]; intros g k; [done|].
  cbn [add_features fold_left last_entry]. fold (add_features (dict_set (feature_id f) (graph_entry f) g) features).
  rewrite IH, dict_get_set. destruct (last_entry features k); [done|].
  by case_decide.
Qed.

Lemma add_features_keys_stable features : ∀ g,
  (∀ f, f ∈ features → feature_id f ∈ dict_keys g) →
  dict_keys (add_features g features) = dict_keys g.
Proof.
  induction features as [|f features IH]; intros g Hin; [done|].
  cbn [add_features fold_left]. fold (add_features (dict_set (feature_id f) (graph_entry f) g) features).
  assert (Hk : dict_keys (dict_set (feature_id f) (graph_entry f) g) = dict_keys g).
  { rewrite dict_keys_set, decide_True; [done|]. apply Hin. left. }
  rewrite IH, Hk; [done|]. intros f' Hf'. rewrite Hk. apply Hin. by right.
Qed.

Lemma add_features_keys_include features : ∀ g k,
  (k ∈ dict_keys g ∨ ∃ f, f ∈ features ∧ feature_id f = k) →
  k ∈ dict_keys (add_features g features).
Proof.
  induction features as [|f features IH]; intros g k Hk.
  - destruct Hk as [|(f & []%elem_of_nil & _)]. done.
  - cbn [add_features fold_left]. apply IH.
    rewrite dict_keys_set.
    destruct Hk as [Hk|(f' & [->|Hf']%elem_of_cons & Hid)].
    + left. case_decide; [done|]. apply elem_of_app. by left.
    + left. subst k. case_decide; [done|]. apply elem_of_app. right. left.
    + right. eauto.
Qed.

Lemma add_features_idempotent g features :
  NoDup (dict_keys g) →
  add_features (add_features g features) features = add_features g features.
Proof.
  intros Hnd. apply dict_ext.
  - by do 2 apply add_features_NoDup.
  - apply add_features_keys_stable. intros f Hf.
    apply add_features_keys_include. right. eauto.
  - intros k. rewrite (add_features_get features (add_features g features)).
    rewrite (add_features_get features g).
    by destruct (last_entry features k).
Qed.

Lemma create_parallel_tracks_again self features self1 r1 :
  planner_wf self →
  create_parallel_tracks self features = Some (self1, r1) →
  create_parallel_tracks self1 features = Some (self1, r1).
Proof.
  intros Hwf Hrun.
  destruct (create_parallel_tracks_spec self features Hwf)
    as (self' & a & levels & Ha & Hg & Hsort & Hrun').
  rewrite Hrun in Hrun'. injection Hrun' as -> ->.
  assert (Hagain : analyze_features self' features = Some (self', a)).
  { destruct (analyze_features_spec self features) as (cp & Hcp & Ha1).
    destruct (analyze_features_spec self' features) as (cp' & Hcp' & Ha2).
    rewrite Ha in Ha1. injection Ha1 as Hs' Ha'.
    rewrite Ha2. rewrite Hg in Hcp' |- *.
    rewrite add_features_idempotent in Hcp' |- * by done.
    rewrite Hcp in Hcp'. injection Hcp' as <-.
    rewrite Ha'. f_equal. f_equal. rewrite Hs'. simpl. done. }
  unfold create_parallel_tracks at 1. rewrite Hagain. simpl. by rewrite Hsort.
Qed.

(** C9. Planning the same task set twice on the same planner returns the
    same levels, the same tracks and the same critical path. *)
Theorem C9_idempotence self features :
  planner_wf self →
  ∃ self1 r1 self2 r2,
    create_parallel_tracks self features = Some (self1, r1)
    ∧ create_parallel_tracks self1 features = Some (self2, r2)
    ∧ _topological_sort (dependency_graph self1)
      = _topological_sort (dependency_graph self2)
    ∧ r_tracks r1 = r_tracks r2
    ∧ critical_path (r_analysis r1) = critical_path (r_analysis r2).
Proof.
  intros Hwf.
  destruct (create_parallel_tracks_spec self features Hwf)
    as (self1 & a & levels & _ & _ & _ & Hrun).
  exists self1, (plan_of self1 a levels), self1, (plan_of self1 a levels).
  split; [done|]. split; [|done].
  by eapply create_parallel_tracks_again.
Qed.

Lemma C9_idempotence_witness :
  ∃ self1 r1 self2 r2,
    create_parallel_tracks (__init__ 1000) sample_features = Some (self1, r1)
    ∧ create_parallel_tracks self1 sample_features = Some (self2, r2)
    ∧ _topological_sort (dependency_graph self1)
      = _topological_sort (dependency_graph self2)
    ∧ r_tracks r1 = r_tracks r2
    ∧ critical_path (r_analysis r1) = critical_path (r_analysis r2).
Proof.
  apply (C9_idempotence (__init__ 1000) sample_features). apply NoDup_nil_2.
Defined.

(** ** Defaults for missing and unrecognised fields *)

Lemma complexity_weight_known c :
  complexity_weight (known_level c) = complexity_weight c.
Proof.
  unfold known_level, complexity_weight.
  repeat (case_decide; subst; try done).
Qed.

Lemma priority_mult_known p : priority_mult (known_level p) = priority_mult p.
Proof.
  unfold known_level, priority_mult.
  repeat (case_decide; subst; try done).
Qed.

Lemma explicit_feature_id f : feature_id (explicit_feature f) = feature_id f.
Proof. done. Qed.

Lemma explicit_feature_dependencies f :
  feature_dependencies (explicit_feature f) = feature_dependencies f.
Proof. done. Qed.

Lemma explicit_entry_equiv f :
  node_equiv (graph_entry f) (graph_entry (explicit_feature f)).
Proof.
  split_and!; simpl; [done | | | done].
  - by rewrite complexity_weight_known.
  - by rewrite priority_mult_known.
Qed.

Lemma graph_equiv_refl g : graph_equiv g g.
Proof. apply Forall_Forall2_diag, Forall_forall. intros; by split_and!. Qed.

Lemma graph_equiv_set g g' k v v' :
  graph_equiv g g' → node_equiv v v' →
  graph_equiv (dict_set k v g) (dict_set k v' g').
Proof.
  intros Hg Hv. induction Hg as [|[k1 v1] [k2 v2] g g' [Hk Hn] Hg IH]; simpl in *.
  - constructor; [by split | constructor].
  - subst k2. case_decide; constructor; try done.
Qed.

Lemma graph_equiv_get g g' k :
  graph_equiv g g' →
  match dict_get g k, dict_get g' k with
  | Some v, Some v' => node_equiv v v'
  | None, None => True
  | _, _ => False
  end.
Proof.
  induction 1 as [|[k1 v1] [k2 v2] g g' [Hk Hn] Hg IH]; simpl in *; [done|].
  subst k2. by case_decide.
Qed.

Lemma graph_equiv_keys g g' : graph_equiv g g' → dict_keys g = dict_keys g'.
Proof.
  unfold dict_keys.
  induction 1 as [|[k1 v1] [k2 v2] g g' [Hk Hn] Hg IH]; [done|].
  rewrite !fmap_cons. simpl in Hk. by rewrite Hk, IH.
Qed.

Lemma graph_equiv_length g g' : graph_equiv g g' → length g = length g'.
Proof. apply Forall2_length. Qed.

Lemma add_features_equiv features : ∀ g g',
  graph_equiv g g' →
  graph_equiv (add_features g features)
    (add_features g' (explicit_feature <$> features)).
Proof.
  induction features as [|f features IH]; intros g g' Hg; [done|].
  rewrite fmap_cons. cbn [add_features fold_left]. apply IH.
  rewrite explicit_feature_id. apply graph_equiv_set; [done|].
  apply explicit_entry_equiv.
Qed.

Lemma foldM_opt_ext {A B : Type} (f f' : B → A → option B) (l : list A) :
  (∀ b x, f b x = f' b x) → ∀ b, foldM_opt f b l = foldM_opt f' b l.
Proof.
  intros Hf. induction l as [|x l IH]; intros b; simpl; [done|].
  rewrite Hf. destruct (f' b x); [apply IH | done].
Qed.

Lemma fold_left_ext {A B : Type} (f f' : B → A → B) (l : list A) :
  (∀ b x, f b x = f' b x) → ∀ b, fold_left f l b = fold_left f' l b.
Proof.
  intros Hf. induction l as [|x l IH]; intros b; simpl; [done|].
  by rewrite Hf, IH.
Qed.

Lemma dfs_equiv g g' :
  graph_equiv g g' →
  ∀ fuel n visited path, dfs fuel g n visited path = dfs fuel g' n visited path.
Proof.
  intros Hg. induction fuel as [|fuel IH]; intros n visited path; [done|].
  cbn [dfs]. case_decide; [done|].
  pose proof (graph_equiv_get g g' n Hg) as Hget.
  destruct (dict_get g n) as [v|], (dict_get g' n) as [v'|]; try done.
  destruct Hget as (-> & _).
  match goal with
  | |- match ?a with _ => _ end = match ?b with _ => _ end =>
      replace a with b; [done|]
  end.
  apply foldM_opt_ext. intros longest dep. case_decide; [done|]. by rewrite IH.
Qed.

Lemma find_critical_path_equiv g g' :
  graph_equiv g g' → _find_critical_path g = _find_critical_path g'.
Proof.
  intros Hg. unfold _find_critical_path.
  rewrite <- (graph_equiv_keys g g' Hg), <- (graph_equiv_length g g' Hg).
  apply foldM_opt_ext. intros longest n. by rewrite (dfs_equiv g g' Hg).
Qed.

Lemma build_degrees_equiv g g' :
  graph_equiv g g' → build_degrees g = build_degrees g'.
Proof.
  unfold build_degrees. generalize (∅ : gmap key Z, ∅ : gmap key (list key)).
  intros st Hg. revert st.
  induction Hg as [|[k1 v1] [k2 v2] g g' [Hk (Hd & _)] Hg IH]; intros st; [done|].
  simpl in *. subst k2. rewrite Hd. apply IH.
Qed.

Lemma topological_sort_equiv g g' :
  graph_equiv g g' → _topological_sort g = _topological_sort g'.
Proof.
  intros Hg. unfold _topological_sort.
  rewrite (build_degrees_equiv g g' Hg), (graph_equiv_keys g g' Hg),
    (graph_equiv_length g g' Hg). done.
Qed.

Lemma track_complexity_equiv g g' features :
  graph_equiv g g' → track_complexity g features = track_complexity g' features.
Proof.
  intros Hg. unfold track_complexity. apply fold_left_ext. intros acc fid.
  pose proof (graph_equiv_get g g' fid Hg) as Hget.
  destruct (dict_get g fid) as [v|], (dict_get g' fid) as [v'|]; try done.
  destruct Hget as (_ & -> & -> & _). done.
Qed.

Lemma total_effort_equiv g g' features :
  graph_equiv g g' → total_effort g features = total_effort g' features.
Proof.
  intros Hg. unfold total_effort. apply fold_left_ext. intros acc fid.
  pose proof (graph_equiv_get g g' fid Hg) as Hget.
  destruct (dict_get g fid) as [v|], (dict_get g' fid) as [v'|]; try done.
  destruct Hget as (_ & _ & _ & ->). done.
Qed.

Lemma allocate_resources_equiv p p' tracks :
  planner_equiv p p' → _allocate_resources p tracks = _allocate_resources p' tracks.
Proof.
  intros (Hmax & _ & Hg). unfold _allocate_resources. rewrite Hmax.
  rewrite (fold_left_ext (allocate_step (dependency_graph p))
             (allocate_step (dependency_graph p'))); [done|].
  intros [allocation total] t. unfold allocate_step, track_entry.
  by rewrite (track_complexity_equiv _ _ _ Hg).
Qed.

Lemma estimate_track_duration_equiv p p' t e :
  planner_equiv p p' →
  _estimate_track_duration p t e = _estimate_track_duration p' t e.
Proof.
  intros (_ & _ & Hg). unfold _estimate_track_duration.
  by rewrite (total_effort_equiv _ _ _ Hg).
Qed.

Lemma create_execution_plan_equiv p p' tracks allocation :
  planner_equiv p p' →
  _create_execution_plan p tracks allocation
  = _create_execution_plan p' tracks allocation.
Proof.
  intros Hp. unfold _create_execution_plan. f_equal.
  apply fold_left_ext. intros [plan t0] t. unfold plan_step_of, make_step.
  by rewrite (estimate_track_duration_equiv p p' _ _ Hp).
Qed.

Lemma estimate_duration_equiv p p' tracks :
  planner_equiv p p' → _estimate_duration p tracks = _estimate_duration p' tracks.
Proof.
  intros Hp. unfold _estimate_duration.
  rewrite (fold_left_ext (estimate_step p) (estimate_step p')); [done|].
  intros [total parallel] t. unfold estimate_step.
  destruct Hp as (Hmax & Hra & Hg). rewrite Hra.
  by rewrite (estimate_track_duration_equiv p p' _ _ (conj Hmax (conj Hra Hg))).
Qed.

Lemma explicit_features_lists (features : list feature) :
  feature_id <$> filter independent (explicit_feature <$> features)
  = feature_id <$> filter independent features
  ∧ feature_id <$> filter (λ f, ¬ independent f) (explicit_feature <$> features)
    = feature_id <$> filter (λ f, ¬ independent f) features.
Proof.
  induction features as [|f features [IH1 IH2]]; [done|].
  rewrite fmap_cons, !filter_cons.
  assert (Hi : independent (explicit_feature f) ↔ independent f) by done.
  destruct (decide (independent f)) as [Hf|Hf].
  - rewrite (decide_True (P := independent (explicit_feature f))) by by apply Hi.
    rewrite !(decide_False (P := ¬ _)) by auto.
    rewrite !fmap_cons, IH1, IH2. done.
  - rewrite (decide_False (P := independent (explicit_feature f))) by by rewrite Hi.
    rewrite !(decide_True (P := ¬ _)) by by rewrite ?Hi.
    rewrite !fmap_cons, IH1, IH2. done.
Qed.

(** C10. Features with a missing or unrecognised complexity or priority,
    or a missing effort, are planned without failure and exactly as the
    same features with complexity and priority ["medium"] (weight 2,
    multiplier 1) and effort 5 written out: the analysis, the tracks, the
    allocation, the execution plan, the total duration and the suggestions
    coincide. *)
Theorem C10_missing_fields_default self features :
  planner_wf self →
  complexity_weight "medium" = 2%Z ∧ priority_mult "medium" = 1%Q
  ∧ (∀ f, f ∈ features →
       complexity (graph_entry (explicit_feature f))
         ∈ ["low"; "medium"; "high"]%string
       ∧ priority (graph_entry (explicit_feature f))
         ∈ ["low"; "medium"; "high"]%string
       ∧ (f_effort f = None →
            estimated_effort (graph_entry (explicit_feature f)) = 5%Q))
  ∧ ∃ self1 r self2 r',
      create_parallel_tracks self features = Some (self1, r)
      ∧ create_parallel_tracks self (explicit_feature <$> features)
        = Some (self2, r')
      ∧ critical_path (r_analysis r) = critical_path (r_analysis r')
      ∧ parallelism_score (r_analysis r) = parallelism_score (r_analysis r')
      ∧ independent_features (r_analysis r) = independent_features (r_analysis r')
      ∧ dependent_features (r_analysis r) = dependent_features (r_analysis r')
      ∧ r_tracks r = r_tracks r'
      ∧ r_resource_allocation r = r_resource_allocation r'
      ∧ r_execution_plan r = r_execution_plan r'
      ∧ r_estimated_duration r = r_estimated_duration r'
      ∧ r_optimization_suggestions r = r_optimization_suggestions r'.
Proof.
  intros Hwf. split; [done|]. split; [done|]. split.
  { intros f _. simpl. split_and!.
    - unfold known_level. repeat case_decide; repeat constructor.
    - unfold known_level. repeat case_decide; repeat constructor.
    - by intros ->. }
  destruct (create_parallel_tracks_spec self features Hwf)
    as (self1 & a & levels & Ha & Hg & Hsort & Hrun).
  destruct (create_parallel_tracks_spec self (explicit_feature <$> features) Hwf)
    as (self2 & a' & levels' & Ha' & Hg' & Hsort' & Hrun').
  exists self1, (plan_of self1 a levels), self2, (plan_of self2 a' levels').
  split; [done|]. split; [done|].
  assert (Hequiv : planner_equiv self1 self2).
  { apply analyze_features_graph in Ha as (_ & Hm & Hr).
    apply analyze_features_graph in Ha' as (_ & Hm' & Hr').
    split_and!; [congruence.. |].
    rewrite Hg, Hg'. apply add_features_equiv, graph_equiv_refl. }
  assert (levels' = levels) as ->.
  { rewrite (topological_sort_equiv _ _ (proj2 (proj2 Hequiv))) in Hsort. congruence. }
  destruct (analyze_features_spec self features) as (cp & Hcp & Ha1).
  destruct (analyze_features_spec self (explicit_feature <$> features))
    as (cp' & Hcp' & Ha2).
  rewrite Ha in Ha1. injection Ha1 as _ ->.
  rewrite Ha' in Ha2. injection Ha2 as _ ->.
  assert (cp' = cp) as ->.
  { rewrite <- (find_critical_path_equiv _ _
        (add_features_equiv features _ _ (graph_equiv_refl _))) in Hcp'.
    congruence. }
  destruct (explicit_features_lists features) as [Hi Hd].
  assert (Hscore :
    (if decide (0 < length (explicit_feature <$> features))
     then (inject_Z (Z.of_nat (length (filter independent (explicit_feature <$> features))))
           / inject_Z (Z.of_nat (length (explicit_feature <$> features))))%Q
     else 0%Q)
    = (if decide (0 < length features)
       then (inject_Z (Z.of_nat (length (filter independent features)))
             / inject_Z (Z.of_nat (length features)))%Q
       else 0%Q)).
  { rewrite length_fmap.
    assert (length (filter independent (explicit_feature <$> features))
            = length (filter independent features)) as ->; [|done].
    by rewrite <- (length_fmap feature_id), Hi, length_fmap. }
  cbn [plan_of r_analysis r_tracks r_resource_allocation r_execution_plan
       r_estimated_duration r_optimization_suggestions critical_path
       parallelism_score independent_features dependent_features].
  split_and!; try done.
  - apply allocate_resources_equiv, Hequiv.
  - rewrite (allocate_resources_equiv _ _ _ Hequiv).
    apply create_execution_plan_equiv, Hequiv.
  - apply estimate_duration_equiv, Hequiv.
  - unfold _generate_suggestions, max_teams. simpl.
    destruct Hequiv as (-> & _ & _). rewrite Hscore, Hi, Hd. done.
Qed.

Lemma C10_missing_fields_default_witness :
  complexity_weight "medium" = 2%Z ∧ priority_mult "medium" = 1%Q
  ∧ (∀ f, f ∈ sloppy_features →
       complexity (graph_entry (explicit_feature f))
         ∈ ["low"; "medium"; "high"]%string
       ∧ priority (graph_entry (explicit_feature f))
         ∈ ["low"; "medium"; "high"]%string
       ∧ (f_effort f = None →
            estimated_effort (graph_entry (explicit_feature f)) = 5%Q))
  ∧ ∃ self1 r self2 r',
      create_parallel_tracks (__init__ 1000) sloppy_features = Some (self1, r)
      ∧ create_parallel_tracks (__init__ 1000) (explicit_feature <$> sloppy_features)
        = Some (self2, r')
      ∧ critical_path (r_analysis r) = critical_path (r_analysis r')
      ∧ parallelism_score (r_analysis r) = parallelism_score (r_analysis r')
      ∧ independent_features (r_analysis r) = independent_features (r_analysis r')
      ∧ dependent_features (r_analysis r) = dependent_features (r_analysis r')
      ∧ r_tracks r = r_tracks r'
      ∧ r_resource_allocation r = r_resource_allocation r'
      ∧ r_execution_plan r = r_execution_plan r'
      ∧ r_estimated_duration r = r_estimated_duration r'
      ∧ r_optimization_suggestions r = r_optimization_suggestions r'.
Proof.
  apply (C10_missing_fields_default (__init__ 1000) sloppy_features).
  apply NoDup_nil_2.
Defined.

Example sloppy_plan_allocation :
  (r_resource_allocation ∘ snd)
  <$> create_parallel_tracks (__init__ 1000) sloppy_features
  = Some
      [ ("track_seq_0",
         {| a_complexity := Some 2%Q; a_features := Some [Some "a"];
            a_processes := Some 448%Z; a_teams := Some 28%Z |});
        ("track_seq_1",
         {| a_complexity := Some 2%Q; a_features := Some [Some "b"];
            a_processes := Some 448%Z; a_teams := Some 28%Z |}) ]%string.
Proof. vm_compute. reflexivity. Qed.

(** ** Tracks mirror the levels *)

Lemma group_into_tracks_lookup levels i :
  _group_into_tracks levels !! i = make_track i <$> levels !! i.
Proof. apply list_lookup_imap. Qed.

Lemma make_track_features i level : t_features (make_track i level) = level.
Proof. unfold make_track. by case_decide. Qed.

Lemma make_track_level i level : t_level (make_track i level) = i.
Proof. unfold make_track. by case_decide. Qed.

Lemma group_into_tracks_features levels :
  t_features <$> _group_into_tracks levels = levels.
Proof.
  apply list_eq. intros i.
  rewrite list_lookup_fmap, group_into_tracks_lookup.
  destruct (levels !! i); simpl; [|done]. by rewrite make_track_features.
Qed.

(** X1. The tracks are the levels, one track per level in level order:
    reading the feature lists of the tracks gives the levels back, track
    [i] carries level index [i], it is Sequential exactly when its level
    has one task and Parallel otherwise, and no two tracks share an id. *)
Theorem X1_tracks_mirror_levels (levels : list (list key)) :
  t_features <$> _group_into_tracks levels = levels
  ∧ NoDup (t_id <$> _group_into_tracks levels)
  ∧ ∀ i tr, _group_into_tracks levels !! i = Some tr →
      t_level tr = i
      ∧ (t_type tr = "sequential"%string ↔ length (t_features tr) = 1)
      ∧ (t_type tr = "parallel"%string ↔ length (t_features tr) ≠ 1)
      ∧ (t_can_parallel tr = false ↔ length (t_features tr) = 1).
Proof.
  split; [apply group_into_tracks_features|].
  split; [apply track_ids_NoDup|].
  intros i tr. rewrite group_into_tracks_lookup.
  destruct (levels !! i) as [l|]; [|done]. intros [= <-].
  unfold make_track. case_decide; simpl; split_and!; try done;
    split; intros; try done; try congruence.
Qed.

(** ** The leveler on arbitrary graphs *)

Lemma relax_fold_added neighbors : ∀ in_degree queue in_degree' queue',
  fold_left relax neighbors (in_degree, queue) = (in_degree', queue') →
  ∃ added, queue' = queue ++ added ∧ ∀ m, m ∈ added → m ∈ neighbors.
Proof.
  induction neighbors as [|x neighbors IH]; intros in_degree queue in_degree' queue'.
  - intros [= <- <-]. exists []. split; [by rewrite app_nil_r|].
    by intros m ?%elem_of_nil.
  - cbn [fold_left relax]. intros (added & -> & Hadded)%IH.
    case_decide.
    + exists (x :: added). split; [by rewrite <- app_assoc|].
      intros m [->|Hm]%elem_of_cons; [left | right; auto].
    + exists added. split; [done|]. intros m Hm. right. auto.
Qed.

Lemma process_level_sources g adjacency :
  (∀ d m, count m (adjacency_of adjacency d) = count d (deps_of g m)) →
  ∀ k in_degree queue current in_degree' queue' current',
    Nat.iter k (pop_one adjacency) (in_degree, queue, current)
    = (in_degree', queue', current') →
    (∀ x, x ∈ current → x ∈ current')
    ∧ ∀ m, m ∈ queue' → m ∈ queue ∨ ∃ d, d ∈ current' ∧ edge g m d.
Proof.
  intros Hadj. induction k as [|k IH];
    intros in_degree queue current in_degree' queue' current'.
  - intros [= <- <- <-]. split; [done | by left].
  - rewrite Nat.iter_succ.
    destruct (Nat.iter k (pop_one adjacency) (in_degree, queue, current))
      as [[in_degree1 queue1] current1] eqn:Hk.
    destruct (IH _ _ _ _ _ _ Hk) as [Hcur Hsrc].
    unfold pop_one. destruct queue1 as [|n rest].
    { intros [= <- <- <-]. done. }
    destruct (fold_left relax (adjacency_of adjacency n) (in_degree1, rest))
      as [in_degree2 queue2] eqn:Hfold.
    apply relax_fold_added in Hfold as (added & -> & Hadded).
    intros [= <- <- <-]. split.
    + intros x Hx. apply elem_of_app. left. auto.
    + intros m [Hm|Hm]%elem_of_app.
      * destruct (Hsrc m) as [?|(d & Hd & He)]; [by right | by left |].
        right. exists d. split; [apply elem_of_app; by left | done].
      * right. exists n. split; [apply elem_of_app; right; left|].
        by apply (adjacency_elem g adjacency Hadj), Hadded.
Qed.

Lemma level_loop_tight g adjacency :
  (∀ d m, count m (adjacency_of adjacency d) = count d (deps_of g m)) →
  ∀ fuel in_degree queue levels res,
    kahn_inv g in_degree (concat levels) queue →
    Forall (λ l, l ≠ []) levels →
    (∀ i l t, levels !! S i = Some l → t ∈ l →
       ∃ d l', edge g t d ∧ levels !! i = Some l' ∧ d ∈ l') →
    (levels ≠ [] → ∀ t, t ∈ queue →
       ∃ d l', edge g t d ∧ last levels = Some l' ∧ d ∈ l') →
    level_loop fuel adjacency in_degree queue levels = Some res →
    Forall (λ l, l ≠ []) res
    ∧ (∀ i l t, res !! S i = Some l → t ∈ l →
         ∃ d l', edge g t d ∧ res !! i = Some l' ∧ d ∈ l')
    ∧ ∃ rest, res = levels ++ rest
        ∧ head rest = match queue with [] => None | _ :: _ => Some queue end.
Proof.
  intros Hadj. induction fuel as [|fuel IH];
    intros in_degree queue levels res Hinv Hne Htight Hq; [done|].
  destruct queue as [|n queue].
  - intros [= <-]. split_and!; [done..|]. exists []. by rewrite app_nil_r.
  - cbn [level_loop].
    destruct (process_level_inv g adjacency Hadj (length (n :: queue)) in_degree
                (concat levels) (n :: queue))
      as (in_degree1 & added & Hiter & Hinv1); [lia | done |].
    rewrite Hiter.
    apply (process_level_sources g adjacency Hadj) in Hiter as [_ Hsrc].
    rewrite drop_all, take_ge in Hinv1, Hsrc |- * by lia.
    simpl in Hinv1, Hsrc |- *.
    intros Hloop. apply IH in Hloop as (Hne' & Htight' & rest & -> & Hhead).
    + split_and!; [done..|]. exists ((n :: queue) :: rest).
      split; [by rewrite <- app_assoc | done].
    + by rewrite concat_app; simpl; rewrite app_nil_r.
    + apply Forall_app. split; [done|]. by constructor.
    + intros i l t Hl Ht.
      apply lookup_snoc_Some in Hl as [[Hi Hl]|[Hi <-]].
      * destruct (Htight i l t Hl Ht) as (d & l' & He & Hl' & Hd).
        exists d, l'. split_and!; [done | | done].
        rewrite lookup_app_l; [done | lia].
      * destruct (Hq ltac:(by intros ->) t Ht) as (d & l' & He & Hl' & Hd).
        exists d, l'. split_and!; [done | | done].
        rewrite last_lookup in Hl'. rewrite <- Hi in Hl'. simpl in Hl'.
        rewrite lookup_app_l; [done | lia].
    + intros _ t Ht. destruct (Hsrc t Ht) as [Hin|(d & Hd & He)].
      * exfalso. destruct Hinv1 as [Hnd _ _ _].
        apply NoDup_app in Hnd as (_ & Hdisj & _).
        apply (Hdisj t); [|done]. apply elem_of_app. by right.
      * exists d, (n :: queue). split_and!; [done | apply last_snoc | done].
Qed.

Lemma kahn_inv_init g in_degree :
  NoDup (dict_keys g) →
  (∀ m, in_degree_of in_degree m = Z.of_nat (length (deps_of g m))) →
  filter (λ n, in_degree_of in_degree n = 0%Z) (dict_keys g) = dependency_free g
  ∧ kahn_inv g in_degree [] (dependency_free g).
Proof.
  intros Hnd Hdeg.
  assert (Hq : filter (λ n, in_degree_of in_degree n = 0%Z) (dict_keys g)
               = dependency_free g).
  { apply list_filter_iff. intros n. rewrite Hdeg.
    destruct (deps_of g n); simpl; split; try done; lia. }
  split; [done|]. split; simpl.
  - by apply NoDup_filter.
  - intros n [_ ?]%list_elem_of_filter. done.
  - intros n _. by rewrite Hdeg, filter_not_in_nil.
  - intros n Hn. unfold dependency_free. rewrite list_elem_of_filter.
    destruct (deps_of g n) as [|d ds]; simpl.
    + split; [constructor | done].
    + split; [by intros [? _]|].
      intros [[]%elem_of_nil _]%Forall_cons.
Qed.

Lemma topological_sort_tight g levels :
  NoDup (dict_keys g) →
  _topological_sort g = Some levels →
  Forall (λ l, l ≠ []) levels
  ∧ head levels
    = match dependency_free g with [] => None | _ :: _ => Some (dependency_free g) end
  ∧ ∀ i l t, levels !! S i = Some l → t ∈ l →
      ∃ d l', edge g t d ∧ levels !! i = Some l' ∧ d ∈ l'.
Proof.
  intros Hnd. unfold _topological_sort.
  destruct (build_degrees g) as [in_degree adjacency] eqn:Hbuild.
  apply build_degrees_spec in Hbuild as [Hdeg Hadj]; [|done].
  destruct (kahn_inv_init g in_degree Hnd Hdeg) as [-> Hinv].
  intros Hloop.
  apply (level_loop_tight g adjacency Hadj) in Hloop
    as (Hne & Htight & rest & -> & Hhead); [done | done | done | | done].
  intros i l t Hl. by rewrite lookup_nil in Hl.
Qed.

(** X2. Whatever the graph — cyclic, or with unknown dependency ids — the
    leveler returns; every id it schedules is a task of the graph, no task
    is scheduled twice, and no level is empty. *)
Theorem X2_levels_sound (g : dict key node) :
  NoDup (dict_keys g) →
  ∃ levels,
    _topological_sort g = Some levels
    ∧ NoDup (concat levels)
    ∧ (∀ t, t ∈ concat levels → t ∈ dict_keys g)
    ∧ Forall (λ l, l ≠ []) levels
    ∧ length levels ≤ length g.
Proof.
  intros Hnd.
  destruct (topological_sort_spec g Hnd) as (levels & Hsort & _ & Hnd' & Hsub & _).
  destruct (topological_sort_tight g levels Hnd Hsort) as (Hne & _ & _).
  exists levels. split_and!; [done..|].
  assert (Hlen : length levels ≤ length (concat levels)).
  { clear -Hne. induction Hne as [|l levels Hl _ IH]; [done|].
    simpl. rewrite length_app. destruct l; [done|]. simpl. lia. }
  pose proof (NoDup_incl_length _ _ Hnd' Hsub) as Hle.
  unfold dict_keys in Hle. rewrite length_fmap in Hle. lia.
Qed.

Lemma X2_levels_sound_witness :
  ∃ levels,
    _topological_sort (add_features [] cyclic_features) = Some levels
    ∧ NoDup (concat levels)
    ∧ (∀ t, t ∈ concat levels → t ∈ dict_keys (add_features [] cyclic_features))
    ∧ Forall (λ l, l ≠ []) levels
    ∧ length levels ≤ length (add_features [] cyclic_features).
Proof.
  apply (X2_levels_sound (add_features [] cyclic_features)).
  apply add_features_NoDup, NoDup_nil_2.
Defined.

(** X3. The leveler schedules exactly the tasks whose dependencies are all
    scheduled: a task is left out if and only if one of its dependencies is
    left out (or is not a task at all). *)
Theorem X3_scheduled_iff_dependencies_scheduled (g : dict key node) :
  NoDup (dict_keys g) →
  ∃ levels,
    _topological_sort g = Some levels
    ∧ ∀ t, t ∈ dict_keys g →
        (t ∈ concat levels ↔ ∀ d, edge g t d → d ∈ concat levels).
Proof.
  intros Hnd.
  destruct (topological_sort_spec g Hnd) as (levels & Hsort & _ & _ & _ & Hready).
  exists levels. split; [done|]. intros t Ht.
  rewrite (Hready t Ht), Forall_forall. done.
Qed.

Lemma X3_scheduled_iff_dependencies_scheduled_witness :
  ∃ levels,
    _topological_sort (add_features [] dangling_features) = Some levels
    ∧ ∀ t, t ∈ dict_keys (add_features [] dangling_features) →
        (t ∈ concat levels
         ↔ ∀ d, edge (add_features [] dangling_features) t d → d ∈ concat levels).
Proof.
  apply (X3_scheduled_iff_dependencies_scheduled (add_features [] dangling_features)).
  apply add_features_NoDup, NoDup_nil_2.
Defined.

(** X4. Tasks are scheduled as early as their dependencies allow: the first
    level is the list of dependency-free tasks in dictionary order (there
    is no level at all when there is none), and every task of a later level
    has a dependency in the level just before. *)
Theorem X4_levels_tight (g : dict key node) :
  NoDup (dict_keys g) →
  ∃ levels,
    _topological_sort g = Some levels
    ∧ head levels
      = match dependency_free g with
        | [] => None
        | _ :: _ => Some (dependency_free g)
        end
    ∧ ∀ i l t, levels !! S i = Some l → t ∈ l →
        ∃ d l', edge g t d ∧ levels !! i = Some l' ∧ d ∈ l'.
Proof.
  intros Hnd.
  destruct (topological_sort_spec g Hnd) as (levels & Hsort & _).
  destruct (topological_sort_tight g levels Hnd Hsort) as (_ & Hhead & Htight).
  by exists levels.
Qed.

Lemma X4_levels_tight_witness :
  ∃ levels,
    _topological_sort (add_features [] sample_features) = Some levels
    ∧ head levels
      = match dependency_free (add_features [] sample_features) with
        | [] => None
        | _ :: _ => Some (dependency_free (add_features [] sample_features))
        end
    ∧ ∀ i l t, levels !! S i = Some l → t ∈ l →
        ∃ d l', edge (add_features [] sample_features) t d
                ∧ levels !! i = Some l' ∧ d ∈ l'.
Proof.
  apply (X4_levels_tight (add_features [] sample_features)).
  apply add_features_NoDup, NoDup_nil_2.
Defined.

(** ** The critical path on arbitrary graphs *)

Lemma dfs_simple g fuel : ∀ n (visited : gset key) p,
  n ∉ visited →
  dfs fuel g n visited [] = Some p →
  head p = Some n ∧ is_chain g p ∧ NoDup p ∧ ∀ x, x ∈ p → x ∉ visited.
Proof.
  induction fuel as [|fuel IH]; intros n visited p Hn; [done|].
  cbn [dfs]. rewrite decide_False by done. simpl.
  destruct (dict_get g n) as [data|] eqn:Hget.
  - assert (Hdeps : deps_of g n = dependencies data)
      by (unfold deps_of; by rewrite Hget).
    set (visited' := {[n]} ∪ visited).
    assert (Hfold : ∀ l acc res,
      (∀ d, d ∈ l → d ∈ dependencies data) →
      (acc = [] ∨ (∃ d, d ∈ dependencies data ∧ head acc = Some d)
                  ∧ is_chain g acc ∧ NoDup acc
                  ∧ ∀ x, x ∈ acc → x ∉ visited') →
      foldM_opt
        (λ longest_subpath dep,
           if decide (dep ∈ visited') then Some longest_subpath
           else
             match dfs fuel g dep visited' [] with
             | Some subpath =>
                 Some (if decide (length longest_subpath < length subpath)
                       then subpath else longest_subpath)
             | None => None
             end)
        acc l = Some res →
      res = [] ∨ (∃ d, d ∈ dependencies data ∧ head res = Some d)
                 ∧ is_chain g res ∧ NoDup res
                 ∧ ∀ x, x ∈ res → x ∉ visited').
    { induction l as [|d l IHl]; intros acc res Hl Hacc; cbn [foldM_opt].
      - by intros [= <-].
      - assert (Hl' : ∀ d', d' ∈ l → d' ∈ dependencies data)
          by (intros; apply Hl; by right).
        case_decide as Hd; [by apply IHl|].
        destruct (dfs fuel g d visited' []) as [sub|] eqn:Hdfs; [|done].
        destruct (IH d visited' sub Hd Hdfs) as (Hhead & Hchain & Hnd & Hvis).
        apply IHl; [done|]. case_decide; [|done].
        right. split_and!; [|done..]. exists d. split; [apply Hl; left | done]. }
    match goal with
    | |- match ?x with _ => _ end = _ → _ => destruct x as [longest|] eqn:Hf
    end; [|done].
    intros [= <-]. apply Hfold in Hf; [|done | by left].
    destruct Hf as [->|((d & Hd & Hhead) & Hchain & Hnd & Hvis)].
    + split_and!; [done | done | apply NoDup_singleton |].
      by intros x ->%list_elem_of_singleton.
    + split_and!; [done | | |].
      * destruct longest as [|b longest]; [done|]. simpl in Hhead. simplify_eq.
        split; [|done]. unfold edge. by rewrite Hdeps.
      * simpl. constructor; [|done]. intros Hin. apply (Hvis n Hin).
        apply elem_of_union. left. by apply elem_of_singleton.
      * intros x [->|Hx]%elem_of_cons; [done|]. intros Hxv.
        apply (Hvis x Hx). apply elem_of_union. by right.
  - intros [= <-]. split_and!; [done | done | apply NoDup_singleton |].
    by intros x ->%list_elem_of_singleton.
Qed.

Lemma find_critical_path_simple g cp :
  _find_critical_path g = Some cp →
  chain_of g cp ∧ NoDup cp ∧ (cp = [] ↔ g = []).
Proof.
  unfold _find_critical_path.
  assert (Hgen : ∀ l acc res,
    (∀ n, n ∈ l → n ∈ dict_keys g) →
    chain_of g acc ∧ NoDup acc →
    foldM_opt
      (λ longest_path n,
         match dfs (S (length g)) g n ∅ [] with
         | Some path =>
             Some (if decide (length longest_path < length path)
                   then path else longest_path)
         | None => None
         end) acc l = Some res →
    (chain_of g res ∧ NoDup res) ∧ (res = [] → acc = [] ∧ l = [])).
  { induction l as [|n l IH]; intros acc res Hl Hacc; cbn [foldM_opt].
    - by intros [= <-].
    - destruct (dfs (S (length g)) g n ∅ []) as [path|] eqn:Hdfs; [|done].
      destruct (dfs_simple g (S (length g)) n ∅ path) as (Hhead & Hchain & Hnd & _);
        [apply not_elem_of_empty | done |].
      intros Hres. apply IH in Hres as [Hres Hnil].
      + split; [done|]. intros Hr. destruct (Hnil Hr) as [Hacc' _].
        case_decide; [subst path; done|]. subst acc.
        destruct path; [done|]. simpl in *. lia.
      + intros n' Hn'. apply Hl. by right.
      + case_decide; [|done]. split; [|done]. split; [done|].
        intros x Hx. rewrite Hhead in Hx. simplify_eq. apply Hl. left. }
  intros Hfold. apply Hgen in Hfold as [[Hc Hnd] Hnil]; [|done|].
  - split_and!; [done..|]. split.
    + intros Hcp. destruct (Hnil Hcp) as [_ Hk]. unfold dict_keys in Hk.
      by apply fmap_nil_inv in Hk.
    + intros ->. by destruct Hc as [_ Hc]; destruct cp as [|x cp];
        [|specialize (Hc x eq_refl); apply elem_of_nil in Hc].
  - split; [by split | constructor].
Qed.


Example cyclic_critical_path :
  _find_critical_path (add_features [] cyclic_features)
  = Some [Some "A"; Some "B"]%string.
Proof. vm_compute. reflexivity. Qed.

(** ** What [analyze_features] records *)

Lemma add_features_keys features : ∀ g k,
  k ∈ dict_keys (add_features g features)
  ↔ k ∈ dict_keys g ∨ ∃ f, f ∈ features ∧ feature_id f = k.
Proof.
  intros g k. split; [|apply add_features_keys_include].
  revert g. induction features as [|f features IH]; intros g; [by left|].
  cbn [add_features fold_left]. intros [Hk|(f' & Hf' & Hid)]%IH.
  - rewrite dict_keys_set in Hk. case_decide; [by left|].
    apply elem_of_app in Hk as [?|Hx%list_elem_of_singleton]; [by left|].
    right. exists f. split; [left | done].
  - right. exists f'. split; [by right | done].
Qed.

(** X6. The analysis lists every submitted feature exactly once, as
    independent or as dependent, and it only ever adds to the planner's
    graph: afterwards the graph holds the ids it held before together with
    the submitted ids. *)
Theorem X6_analysis_partitions_features (self : planner) (features : list feature) :
  ∃ self' a,
    analyze_features self features = Some (self', a)
    ∧ independent_features a ++ dependent_features a
      ≡ₚ feature_id <$> features
    ∧ total_features a = length features
    ∧ length (independent_features a) + length (dependent_features a)
      = total_features a
    ∧ ∀ k, k ∈ dict_keys (dependency_graph self')
           ↔ k ∈ dict_keys (dependency_graph self)
             ∨ ∃ f, f ∈ features ∧ feature_id f = k.
Proof.
  destruct (analyze_features_spec self features) as (cp & _ & Ha).
  eexists _, _. split; [exact Ha|]. simpl.
  assert (Hperm : (feature_id <$> filter independent features)
                  ++ (feature_id <$> filter (λ f, ¬ independent f) features)
                  ≡ₚ feature_id <$> features).
  { rewrite <- fmap_app. apply fmap_Permutation, filter_app_complement. }
  split_and!; [done | done | | apply add_features_keys].
  rewrite <- length_app, Hperm. by rewrite length_fmap.
Qed.

(** ** Planning on a used planner *)

Lemma add_features_app g features1 features2 :
  add_features g (features1 ++ features2)
  = add_features (add_features g features1) features2.
Proof. apply fold_left_app. Qed.

Lemma planner_eq (p p' : planner) :
  max_processes p = max_processes p' →
  dependency_graph p = dependency_graph p' →
  resource_allocation p = resource_allocation p' →
  p = p'.
Proof. destruct p, p'; simpl; by intros -> -> ->. Qed.

Lemma run_critical_path self features self' a :
  analyze_features self features = Some (self', a) →
  _find_critical_path (dependency_graph self') = Some (critical_path a).
Proof.
  destruct (analyze_features_spec self features) as (cp & Hcp & Ha).
  rewrite Ha. by intros [= <- <-].
Qed.

(** X7. The planner accumulates task sets.  Planning [features2] on a
    planner that has already planned [features1] leaves the planner in the
    same state, and yields the same tracks, allocation, execution plan,
    duration and critical path, as planning [features1 ++ features2] in
    one go: the tasks of the earlier run are scheduled again. *)
Theorem X7_runs_accumulate (self : planner) (features1 features2 : list feature) :
  planner_wf self →
  ∃ self1 r1 self2 r2 self12 r12,
    create_parallel_tracks self features1 = Some (self1, r1)
    ∧ create_parallel_tracks self1 features2 = Some (self2, r2)
    ∧ create_parallel_tracks self (features1 ++ features2) = Some (self12, r12)
    ∧ self2 = self12
    ∧ r_tracks r2 = r_tracks r12
    ∧ r_resource_allocation r2 = r_resource_allocation r12
    ∧ r_execution_plan r2 = r_execution_plan r12
    ∧ r_estimated_duration r2 = r_estimated_duration r12
    ∧ critical_path (r_analysis r2) = critical_path (r_analysis r12).
Proof.
  intros Hwf.
  destruct (create_parallel_tracks_spec self features1 Hwf)
    as (self1 & a1 & levels1 & Ha1 & Hg1 & _ & Hrun1).
  assert (Hwf1 : planner_wf self1) by (by eapply analyze_features_wf).
  destruct (create_parallel_tracks_spec self1 features2 Hwf1)
    as (self2 & a2 & levels2 & Ha2 & Hg2 & Hsort2 & Hrun2).
  destruct (create_parallel_tracks_spec self (features1 ++ features2) Hwf)
    as (self12 & a12 & levels12 & Ha12 & Hg12 & Hsort12 & Hrun12).
  exists self1, (plan_of self1 a1 levels1), self2, (plan_of self2 a2 levels2),
    self12, (plan_of self12 a12 levels12).
  split; [done|]. split; [done|]. split; [done|].
  assert (Heq : self2 = self12).
  { apply analyze_features_graph in Ha1 as (_ & Hm1 & Hr1).
    pose proof (analyze_features_graph _ _ _ _ Ha2) as (_ & Hm2 & Hr2).
    pose proof (analyze_features_graph _ _ _ _ Ha12) as (_ & Hm12 & Hr12).
    apply planner_eq; [congruence | | congruence].
    by rewrite Hg2, Hg12, Hg1, add_features_app. }
  subst self12. rewrite Hsort2 in Hsort12. injection Hsort12 as <-.
  split; [done|]. cbn [plan_of r_tracks r_resource_allocation r_execution_plan
                       r_estimated_duration r_analysis].
  split_and!; try done.
  apply run_critical_path in Ha2, Ha12. congruence.
Qed.

Lemma X7_runs_accumulate_witness :
  ∃ self1 r1 self2 r2 self12 r12,
    create_parallel_tracks (__init__ 1000) single_task = Some (self1, r1)
    ∧ create_parallel_tracks self1 dangling_features = Some (self2, r2)
    ∧ create_parallel_tracks (__init__ 1000) (single_task ++ dangling_features)
      = Some (self12, r12)
    ∧ self2 = self12
    ∧ r_tracks r2 = r_tracks r12
    ∧ r_resource_allocation r2 = r_resource_allocation r12
    ∧ r_execution_plan r2 = r_execution_plan r12
    ∧ r_estimated_duration r2 = r_estimated_duration r12
    ∧ critical_path (r_analysis r2) = critical_path (r_analysis r12).
Proof.
  apply (X7_runs_accumulate (__init__ 1000) single_task dangling_features).
  apply NoDup_nil_2.
Defined.

(** ** The plan and the allocation agree *)

Lemma dict_get_keyed {A V : Type} (key_of : A → string) (h : A → V) (l : list A) :
  NoDup (key_of <$> l) →
  ∀ i x, l !! i = Some x →
    dict_get ((λ x, (key_of x, h x)) <$> l) (key_of x) = Some (h x).
Proof.
  induction l as [|y l IH]; intros Hnd i x Hx; [by rewrite lookup_nil in Hx|].
  rewrite fmap_cons in Hnd. apply NoDup_cons in Hnd as [Hy Hnd].
  rewrite fmap_cons. cbn [dict_get]. destruct i as [|i]; simpl in Hx.
  - simplify_eq. by rewrite decide_True.
  - rewrite decide_False; [by eapply IH|].
    intros Heq. apply Hy. rewrite Heq. apply list_elem_of_fmap.
    exists x. split; [done|]. by eapply list_elem_of_lookup_2.
Qed.

Lemma plan_fold_steps self allocation tracks : ∀ plan0 t0,
  ∃ steps t,
    fold_left (plan_step_of self allocation) tracks (plan0, t0)
    = (plan0 ++ steps, t)
    ∧ length steps = length tracks
    ∧ ∀ i s, steps !! i = Some s →
        ∃ tr t', tracks !! i = Some tr
          ∧ s = make_step self allocation (plan0 ++ take i steps) t' tr.
Proof.
  induction tracks as [|tr tracks IH]; intros plan0 t0.
  - exists [], t0. rewrite app_nil_r. split_and!; [done..|].
    intros i s Hs. by rewrite lookup_nil in Hs.
  - cbn [fold_left].
    set (step := make_step self allocation plan0 t0 tr).
    set (t1 := if t_can_parallel tr then t0 else (t0 + s_duration step)%Q).
    change (plan_step_of self allocation (plan0, t0) tr)
      with (plan0 ++ [step], t1).
    destruct (IH (plan0 ++ [step]) t1) as (steps & t & Hfold & Hlen & Hsteps).
    exists (step :: steps), t. rewrite Hfold, <- app_assoc.
    split_and!; [done | simpl; by rewrite Hlen |].
    intros [|i] s Hs; simpl in Hs.
    + simplify_eq. exists tr, t0. split; [done|]. by rewrite take_0, app_nil_r.
    + destruct (Hsteps i s Hs) as (tr' & t' & Htr' & ->).
      exists tr', t'. split; [done|].
      change (take (S i) (step :: steps)) with (step :: take i steps).
      by rewrite <- app_assoc.
Qed.

(** X8. In every plan the execution steps, the tracks and the allocation
    entries line up one to one and in order: step [i] is numbered [i + 1],
    names track [i], and carries exactly the teams and processes that the
    allocation holds under that track's id (the fallbacks of one team and
    16 processes are never used), with processes = 16 x teams. *)
Theorem X8_plan_matches_allocation (self : planner) (features : list feature) :
  planner_wf self →
  ∃ self' r,
    create_parallel_tracks self features = Some (self', r)
    ∧ length (r_execution_plan r) = length (r_tracks r)
    ∧ (r_resource_allocation r).*1 = t_id <$> r_tracks r
    ∧ ∀ i s, r_execution_plan r !! i = Some s →
        ∃ tr e,
          r_tracks r !! i = Some tr
          ∧ r_resource_allocation r !! i = Some (t_id tr, e)
          ∧ s_step s = i + 1
          ∧ s_track_id s = t_id tr
          ∧ s_features s = t_features tr
          ∧ a_teams e = Some (s_teams s)
          ∧ a_processes e = Some (s_processes s)
          ∧ s_processes s = (s_teams s * agents_per_team)%Z
          ∧ (1 ≤ s_teams s)%Z.
Proof.
  intros Hwf.
  destruct (create_parallel_tracks_spec self features Hwf)
    as (self' & a & levels & _ & _ & _ & Hrun).
  exists self', (plan_of self' a levels). split; [done|].
  cbn [plan_of r_execution_plan r_tracks r_resource_allocation].
  pose proof (allocate_resources_spec self' levels) as Halloc.
  set (tracks := _group_into_tracks levels) in *.
  set (allocation := _allocate_resources self' tracks) in *.
  set (total := total_complexity_of (dependency_graph self') tracks) in *.
  set (available := (max_processes self' - 100)%Z) in *.
  set (h := λ t, assign_processes total available
                   (track_entry (dependency_graph self') t)).
  change (allocation = (λ t, (t_id t, h t)) <$> tracks) in Halloc.
  unfold _create_execution_plan.
  destruct (plan_fold_steps self' allocation tracks [] 0%Q)
    as (steps & t & Hfold & Hlen & Hsteps).
  rewrite Hfold. simpl. split; [done|]. split.
  { rewrite Halloc, <- list_fmap_compose. done. }
  intros i s Hs. destruct (Hsteps i s Hs) as (tr & t' & Htr & ->).
  exists tr, (h tr). split; [done|]. split.
  { rewrite Halloc, list_lookup_fmap, Htr. done. }
  assert (Hget : dict_get allocation (t_id tr) = Some (h tr)).
  { rewrite Halloc.
    apply (dict_get_keyed t_id h tracks (track_ids_NoDup levels) i tr Htr). }
  unfold make_step. rewrite Hget. simpl.
  destruct (process_count_teams total available
              (track_entry (dependency_graph self') tr))
    as (teams & Hteams & Hp & Hdiv).
  rewrite Hdiv, Hp. split_and!; try done.
  rewrite length_take. apply lookup_lt_Some in Hs. lia.
Qed.

Lemma X8_plan_matches_allocation_witness :
  ∃ self' r,
    create_parallel_tracks (__init__ 1000) sample_features = Some (self', r)
    ∧ length (r_execution_plan r) = length (r_tracks r)
    ∧ (r_resource_allocation r).*1 = t_id <$> r_tracks r
    ∧ ∀ i s, r_execution_plan r !! i = Some s →
        ∃ tr e,
          r_tracks r !! i = Some tr
          ∧ r_resource_allocation r !! i = Some (t_id tr, e)
          ∧ s_step s = i + 1
          ∧ s_track_id s = t_id tr
          ∧ s_features s = t_features tr
          ∧ a_teams e = Some (s_teams s)
          ∧ a_processes e = Some (s_processes s)
          ∧ s_processes s = (s_teams s * agents_per_team)%Z
          ∧ (1 ≤ s_teams s)%Z.
Proof.
  apply (X8_plan_matches_allocation (__init__ 1000) sample_features).
  apply NoDup_nil_2.
Defined.

(** ** The total duration does not see the capacity *)

Lemma estimate_duration_graph p p' tracks :
  dependency_graph p = dependency_graph p' →
  resource_allocation p = resource_allocation p' →
  _estimate_duration p tracks = _estimate_duration p' tracks.
Proof.
  intros Hg Hra.
  unfold _estimate_duration, estimate_step, _estimate_track_duration.
  by rewrite Hg, Hra.
Qed.

(** X9. The estimated total duration never depends on the capacity: two
    fresh planners with different [max_processes] report the same tracks,
    the same critical path and the same [estimated_duration] for the same
    features. *)
Theorem X9_duration_ignores_capacity (mp mp' : Z) (features : list feature) :
  ∃ self1 r self2 r',
    create_parallel_tracks (__init__ mp) features = Some (self1, r)
    ∧ create_parallel_tracks (__init__ mp') features = Some (self2, r')
    ∧ r_tracks r = r_tracks r'
    ∧ critical_path (r_analysis r) = critical_path (r_analysis r')
    ∧ r_estimated_duration r = r_estimated_duration r'.
Proof.
  destruct (create_parallel_tracks_spec (__init__ mp) features)
    as (self1 & a & levels & Ha & Hg & Hsort & Hrun); [apply NoDup_nil_2|].
  destruct (create_parallel_tracks_spec (__init__ mp') features)
    as (self2 & a' & levels' & Ha' & Hg' & Hsort' & Hrun'); [apply NoDup_nil_2|].
  exists self1, (plan_of self1 a levels), self2, (plan_of self2 a' levels').
  split; [done|]. split; [done|].
  assert (Hgg : dependency_graph self1 = dependency_graph self2)
    by (by rewrite Hg, Hg').
  rewrite Hgg in Hsort. rewrite Hsort in Hsort'. injection Hsort' as <-.
  cbn [plan_of r_tracks r_analysis r_estimated_duration]. split_and!.
  - done.
  - apply run_critical_path in Ha, Ha'. congruence.
  - apply estimate_duration_graph; [done|].
    apply analyze_features_graph in Ha as (_ & _ & ->).
    apply analyze_features_graph in Ha' as (_ & _ & ->). done.
Qed.

(** ** Two suggestions that always come together *)

Lemma ratio_lt_half (i n : nat) :
  0 < n →
  (inject_Z (Z.of_nat i) / inject_Z (Z.of_nat n) < 1 # 2)%Q ↔ 2 * i < n.
Proof.
  intros Hn.
  assert (Hpos : (0 < inject_Z (Z.of_nat n))%Q).
  { change 0%Q with (inject_Z 0). rewrite <- Zlt_Qlt. lia. }
  split.
  - intros Hlt. destruct (decide (2 * i < n)) as [|Hge]; [done|]. exfalso.
    apply (Qlt_not_le _ _ Hlt). apply Qle_shift_div_l; [done|].
    assert (Hz : (inject_Z (Z.of_nat n) <= inject_Z (2 * Z.of_nat i))%Q)
      by (rewrite <- Zle_Qle; lia).
    rewrite inject_Z_mult in Hz. change (inject_Z 2) with 2%Q in Hz. lra.
  - intros Hlt. apply Qlt_shift_div_r; [done|].
    assert (Hz : (inject_Z (2 * Z.of_nat i) < inject_Z (Z.of_nat n))%Q)
      by (rewrite <- Zlt_Qlt; lia).
    rewrite inject_Z_mult in Hz. change (inject_Z 2) with 2%Q in Hz. lra.
Qed.

Lemma suggestions_low self a :
  LowParallelism (parallelism_score a) ∈ _generate_suggestions self a
  ↔ (parallelism_score a < 1 # 2)%Q.
Proof.
  unfold _generate_suggestions. rewrite !elem_of_app.
  destruct (Qlt_le_dec (parallelism_score a) (1 # 2)) as [Hlt|Hle].
  - split; [done|]. intros _. left. left.
  - split; [|by intros ?%(Qle_not_lt _ _ Hle)].
    intros [[]%elem_of_nil|[Hm|[Hm|Hm]]]; exfalso; revert Hm; case_decide;
      intros Hm; try (by apply elem_of_nil in Hm);
      by apply list_elem_of_singleton in Hm.
Qed.

Lemma suggestions_more_dependent self a :
  MoreDependentThanIndependent ∈ _generate_suggestions self a
  ↔ length (independent_features a) < length (dependent_features a).
Proof.
  unfold _generate_suggestions. rewrite !elem_of_app.
  destruct (decide (length (independent_features a)
                    < length (dependent_features a))) as [Hlt|Hge].
  - split; [done|]. intros _. right. right. left. left.
  - split; [|done]. intros [Hm|[Hm|[[]%elem_of_nil|Hm]]]; exfalso; revert Hm;
      [destruct (Qlt_le_dec _ _) | case_decide | case_decide];
      intros Hm; try (by apply elem_of_nil in Hm);
      by apply list_elem_of_singleton in Hm.
Qed.

(** X10. For a non-empty task set the low-parallelism suggestion and the
    more-dependent-than-independent suggestion are issued together or not
    at all: each appears exactly when fewer features are independent than
    dependent.  For the empty task set only the low-parallelism one is
    issued. *)
Theorem X10_paired_suggestions (self : planner) (features : list feature) :
  planner_wf self →
  ∃ self' r,
    create_parallel_tracks self features = Some (self', r)
    ∧ (MoreDependentThanIndependent ∈ r_optimization_suggestions r
       ↔ length (filter independent features)
         < length (filter (λ f, ¬ independent f) features))
    ∧ (LowParallelism (parallelism_score (r_analysis r))
         ∈ r_optimization_suggestions r
       ↔ features = []
         ∨ length (filter independent features)
           < length (filter (λ f, ¬ independent f) features)).
Proof.
  intros Hwf.
  destruct (create_parallel_tracks_spec self features Hwf)
    as (self' & a & levels & Ha & _ & _ & Hrun).
  exists self', (plan_of self' a levels). split; [done|].
  cbn [plan_of r_optimization_suggestions r_analysis].
  rewrite suggestions_low, suggestions_more_dependent.
  destruct (analyze_features_spec self features) as (cp & _ & Ha').
  rewrite Ha in Ha'. injection Ha' as _ ->. simpl. rewrite !length_fmap.
  split; [done|].
  pose proof (filter_app_complement independent features) as Hperm.
  apply Permutation_length in Hperm. rewrite length_app in Hperm.
  destruct features as [|f features].
  - simpl. split; [by left | done].
  - rewrite decide_True by (simpl; lia).
    rewrite ratio_lt_half by (simpl; lia). split.
    + intros Hlt. right. lia.
    + intros [?|Hlt]; [done | lia].
Qed.

Lemma X10_paired_suggestions_witness :
  ∃ self' r,
    create_parallel_tracks (__init__ 1000) cyclic_features = Some (self', r)
    ∧ (MoreDependentThanIndependent ∈ r_optimization_suggestions r
       ↔ length (filter independent cyclic_features)
         < length (filter (λ f, ¬ independent f) cyclic_features))
    ∧ (LowParallelism (parallelism_score (r_analysis r))
         ∈ r_optimization_suggestions r
       ↔ cyclic_features = []
         ∨ length (filter independent cyclic_features)
           < length (filter (λ f, ¬ independent f) cyclic_features)).
Proof.
  apply (X10_paired_suggestions (__init__ 1000) cyclic_features).
  apply NoDup_nil_2.
Defined.

(** ** Splitting a feature *)

Lemma split_names_length base_name : length (split_names base_name) = 4.
Proof. unfold split_names. by repeat case_match. Qed.

Lemma split_feature_lookup f i s :
  _split_feature f !! i = Some s →
  i < 4
  ∧ f_id s = Some (default "f" (f_id f) +:+ "_" +:+ pretty i)%string
  ∧ f_complexity s = Some "low"%string
  ∧ f_priority s = Some (default "medium"%string (f_priority f))
  ∧ f_effort s = Some 2%Q
  ∧ f_dependencies s = Some [].
Proof.
  unfold _split_feature. rewrite list_lookup_imap.
  destruct (split_names _ !! i) as [nm|] eqn:Hnm; [|done].
  apply lookup_lt_Some in Hnm. rewrite split_names_length in Hnm.
  by intros [= <-].
Qed.

(** X11. Splitting always yields exactly four sub-features, whatever the
    name of the feature: each is dependency-free, of low complexity and
    effort 2, inherits the priority (medium when absent), and has the id
    [<id>_<index>] (with [f] for a missing id), so the four ids differ. *)
Theorem X11_split_feature_shape (f : feature) :
  length (_split_feature f) = 4
  ∧ NoDup (feature_id <$> _split_feature f)
  ∧ ∀ i s, _split_feature f !! i = Some s →
      feature_id s = Some (default "f" (f_id f) +:+ "_" +:+ pretty i)%string
      ∧ independent s
      ∧ f_complexity s = Some "low"%string
      ∧ f_priority s = Some (default "medium"%string (f_priority f))
      ∧ f_effort s = Some 2%Q.
Proof.
  split; [unfold _split_feature; by rewrite length_imap, split_names_length|].
  assert (Hid : ∀ i s, _split_feature f !! i = Some s →
    feature_id s = Some (default "f" (f_id f) +:+ "_" +:+ pretty i)%string).
  { intros i s (_ & Hs & _)%split_feature_lookup. unfold feature_id. by rewrite Hs. }
  split.
  - apply NoDup_alt. intros i j x. rewrite !list_lookup_fmap.
    destruct (_split_feature f !! i) as [s|] eqn:Hs; [|done].
    destruct (_split_feature f !! j) as [s'|] eqn:Hs'; [|done].
    simpl. rewrite (Hid _ _ Hs), (Hid _ _ Hs'). intros [= <-] [= Heq].
    apply (inj (String.append _)), (inj (String.append _)) in Heq.
    symmetry. by apply (inj pretty).
  - intros i s Hs. split; [by apply Hid|].
    apply split_feature_lookup in Hs as (_ & _ & Hc & Hp & He & Hd).
    split_and!; try done. unfold independent, feature_dependencies. by rewrite Hd.
Qed.

(** ** optimize_sprint *)

Lemma optimize_loop_spec (features : list feature) : ∀ acc improvements,
  fold_left optimize_step features (acc, improvements)
  = (acc ++ concat (expand <$> features),
     improvements ++ (split_message <$> filter splittable features)).
Proof.
  induction features as [|f features IH]; intros acc improvements.
  - simpl. by rewrite !app_nil_r.
  - cbn [fold_left]. unfold optimize_step at 2. rewrite filter_cons.
    rewrite fmap_cons. cbn [concat]. unfold expand at 1.
    destruct (decide (splittable f)) as [Hs|Hs].
    + rewrite decide_True by apply Hs. by rewrite IH, fmap_cons, <- !app_assoc.
    + rewrite decide_False by apply Hs. by rewrite IH, <- !app_assoc.
Qed.

Lemma filter_all {A : Type} (P : A → Prop) `{∀ x, Decision (P x)} (l : list A) :
  Forall P l → filter P l = l.
Proof.
  induction 1 as [|x l Hx _ IH]; [done|].
  by rewrite filter_cons, decide_True, IH.
Qed.

Lemma expand_counts (features : list feature) :
  length (concat (expand <$> features))
  = length features + 3 * length (filter splittable features)
  ∧ length (filter independent (concat (expand <$> features)))
    = length (filter independent features)
      + 3 * length (filter splittable features).
Proof.
  induction features as [|f features [IH1 IH2]]; [done|].
  rewrite fmap_cons. cbn [concat]. rewrite filter_app, !length_app, IH1, IH2.
  rewrite !filter_cons. unfold expand.
  destruct (decide (splittable f)) as [Hs|Hs].
  - assert (Hall : filter independent (_split_feature f) = _split_feature f).
    { apply filter_all, Forall_forall. intros s [i Hi]%list_elem_of_lookup.
      apply split_feature_lookup in Hi as (_ & _ & _ & _ & _ & Hd).
      unfold independent, feature_dependencies. by rewrite Hd. }
    rewrite Hall.
    assert (length (_split_feature f) = 4) as ->
      by (unfold _split_feature; by rewrite length_imap, split_names_length).
    rewrite (decide_True (P := independent f)) by apply Hs.
    simpl. lia.
  - rewrite filter_cons, filter_nil. simpl.
    destruct (decide (independent f)); simpl; lia.
Qed.

Lemma optimize_sprint_spec self current_sprint :
  planner_wf self →
  let features := default [] (sp_features current_sprint) in
  ∃ self1 a,
    analyze_features self features = Some (self1, a)
    ∧ if Qlt_le_dec (parallelism_score a) (7 # 10)
      then ∃ self2 a2 levels,
          analyze_features self1 (concat (expand <$> features)) = Some (self2, a2)
          ∧ dependency_graph self2
            = add_features (add_features (dependency_graph self) features)
                (concat (expand <$> features))
          ∧ _topological_sort (dependency_graph self2) = Some levels
          ∧ optimize_sprint self current_sprint
            = Some (self2,
                    {| o_original := current_sprint;
                       o_optimized :=
                         Some {| op_features := concat (expand <$> features);
                                 op_tracks := plan_of self2 a2 levels |};
                       o_improvements :=
                         split_message <$> filter splittable features |})
      else optimize_sprint self current_sprint
           = Some (self1,
                   {| o_original := current_sprint;
                      o_optimized := None;
                      o_improvements := [] |}).
Proof.
  intros Hwf features.
  destruct (analyze_features_spec self features) as (cp & _ & Ha).
  eexists _, _. split; [exact Ha|].
  unfold optimize_sprint. fold features. rewrite Ha.
  destruct (Qlt_le_dec _ _) as [Hlt|Hle]; [|done].
  rewrite optimize_loop_spec. simpl app.
  match goal with
  | |- context [create_parallel_tracks ?s _] =>
      destruct (create_parallel_tracks_spec s (concat (expand <$> features)))
        as (self2 & a2 & levels & Ha2 & Hg2 & Hsort2 & Hrun2)
  end.
  { unfold planner_wf. simpl. by apply add_features_NoDup. }
  exists self2, a2, levels. rewrite Hrun2. done.
Qed.

(** X12. [optimize_sprint] either proposes nothing (no optimized sprint and
    no improvement, when the parallelism score is at least 0.7) or replaces
    each high-complexity dependency-free feature by its four sub-features,
    in place and keeping all other features: one improvement message per
    split, and three more features per split. *)
Theorem X12_optimize_outcome (self : planner) (current_sprint : sprint) :
  planner_wf self →
  ∃ self' a self'' o,
    analyze_features self (default [] (sp_features current_sprint))
    = Some (self', a)
    ∧ optimize_sprint self current_sprint = Some (self'', o)
    ∧ o_original o = current_sprint
    ∧ match o_optimized o with
      | None =>
          (7 # 10 <= parallelism_score a)%Q ∧ o_improvements o = []
      | Some opt =>
          (parallelism_score a < 7 # 10)%Q
          ∧ op_features opt
            = concat (expand <$> default [] (sp_features current_sprint))
          ∧ length (o_improvements o)
            = length (filter splittable (default [] (sp_features current_sprint)))
          ∧ length (op_features opt)
            = length (default [] (sp_features current_sprint))
              + 3 * length (o_improvements o)
      end.
Proof.
  intros Hwf.
  destruct (optimize_sprint_spec self current_sprint Hwf) as (self1 & a & Ha & Hopt).
  exists self1, a. destruct (Qlt_le_dec _ _) as [Hlt|Hle].
  - destruct Hopt as (self2 & a2 & levels & _ & _ & _ & Hrun).
    eexists _, _. split; [done|]. split; [exact Hrun|]. simpl.
    rewrite length_fmap. split_and!; try done. apply expand_counts.
  - eexists _, _. split; [done|]. split; [exact Hopt|]. done.
Qed.

Lemma X12_optimize_outcome_witness :
  ∃ self' a self'' o,
    analyze_features (__init__ 1000) (default [] (sp_features split_sprint))
    = Some (self', a)
    ∧ optimize_sprint (__init__ 1000) split_sprint = Some (self'', o)
    ∧ o_original o = split_sprint
    ∧ match o_optimized o with
      | None =>
          (7 # 10 <= parallelism_score a)%Q ∧ o_improvements o = []
      | Some opt =>
          (parallelism_score a < 7 # 10)%Q
          ∧ op_features opt
            = concat (expand <$> default [] (sp_features split_sprint))
          ∧ length (o_improvements o)
            = length (filter splittable (default [] (sp_features split_sprint)))
          ∧ length (op_features opt)
            = length (default [] (sp_features split_sprint))
              + 3 * length (o_improvements o)
      end.
Proof.
  apply (X12_optimize_outcome (__init__ 1000) split_sprint). apply NoDup_nil_2.
Defined.

Lemma ratio_mono (i t k : nat) :
  i ≤ t → 0 < t →
  (inject_Z (Z.of_nat i) / inject_Z (Z.of_nat t)
   <= inject_Z (Z.of_nat (i + k)) / inject_Z (Z.of_nat (t + k)))%Q.
Proof.
  intros Hit Ht.
  assert (Hpos : (0 < inject_Z (Z.of_nat t))%Q).
  { change 0%Q with (inject_Z 0). rewrite <- Zlt_Qlt. lia. }
  assert (Hpos' : (0 < inject_Z (Z.of_nat (t + k)))%Q).
  { change 0%Q with (inject_Z 0). rewrite <- Zlt_Qlt. lia. }
  apply Qle_shift_div_l; [done|].
  assert (Heq : (inject_Z (Z.of_nat i) / inject_Z (Z.of_nat t)
                 * inject_Z (Z.of_nat (t + k))
                 == inject_Z (Z.of_nat i) * inject_Z (Z.of_nat (t + k))
                    / inject_Z (Z.of_nat t))%Q) by (unfold Qdiv; ring).
  rewrite Heq. apply Qle_shift_div_r; [done|].
  rewrite <- !inject_Z_mult, <- Zle_Qle. nia.
Qed.

(** X13. When [optimize_sprint] splits features, the parallelism score of
    the optimized sprint is never lower than the score of the original. *)
Theorem X13_optimize_raises_score (self : planner) (current_sprint : sprint) :
  planner_wf self →
  ∃ self' a self'' o,
    analyze_features self (default [] (sp_features current_sprint))
    = Some (self', a)
    ∧ optimize_sprint self current_sprint = Some (self'', o)
    ∧ ∀ opt, o_optimized o = Some opt →
        (parallelism_score a
         <= parallelism_score (r_analysis (op_tracks opt)))%Q.
Proof.
  intros Hwf.
  destruct (optimize_sprint_spec self current_sprint Hwf) as (self1 & a & Ha & Hopt).
  exists self1, a. destruct (Qlt_le_dec _ _) as [Hlt|Hle].
  - destruct Hopt as (self2 & a2 & levels & Ha2 & _ & _ & Hrun).
    eexists _, _. split; [done|]. split; [exact Hrun|].
    intros opt [= <-]. cbn [op_tracks plan_of r_analysis].
    set (features := default [] (sp_features current_sprint)) in *.
    destruct (analyze_features_spec self features) as (cp & _ & Ha').
    rewrite Ha in Ha'. injection Ha' as _ ->.
    destruct (analyze_features_spec self1 (concat (expand <$> features)))
      as (cp2 & _ & Ha2').
    rewrite Ha2 in Ha2'. injection Ha2' as _ ->. cbn [parallelism_score].
    destruct (expand_counts features) as [-> ->].
    destruct features as [|f features].
    + simpl. apply Qle_refl.
    + rewrite !decide_True by (simpl; lia).
      apply ratio_mono; [apply length_filter | simpl; lia].
  - eexists _, _. split; [done|]. split; [exact Hopt|]. by intros opt [=].
Qed.

Lemma X13_optimize_raises_score_witness :
  ∃ self' a self'' o,
    analyze_features (__init__ 1000) (default [] (sp_features split_sprint))
    = Some (self', a)
    ∧ optimize_sprint (__init__ 1000) split_sprint = Some (self'', o)
    ∧ ∀ opt, o_optimized o = Some opt →
        (parallelism_score a
         <= parallelism_score (r_analysis (op_tracks opt)))%Q.
Proof.
  apply (X13_optimize_raises_score (__init__ 1000) split_sprint).
  apply NoDup_nil_2.
Defined.

Lemma all_tasks_scheduled g levels :
  NoDup (dict_keys g) → acyclic g → closed g →
  _topological_sort g = Some levels →
  ∀ k, k ∈ dict_keys g →
    ∃ tr, tr ∈ _group_into_tracks levels ∧ k ∈ t_features tr.
Proof.
  intros Hnd Hacyc Hclosed Hsort k Hk.
  destruct (topological_sort_spec g Hnd) as (levels' & Hsort' & _ & _ & _ & Hready).
  rewrite Hsort in Hsort'. injection Hsort' as <-.
  pose proof (acyclic_all_finished g (concat levels) Hacyc Hclosed Hready k Hk) as Hin.
  apply elem_of_concat_lookup in Hin as (i & l & Hl & Hkl).
  exists (make_track i l). split.
  - by apply elem_of_lookup_imap_2.
  - by rewrite make_track_features.
Qed.

(** X14. Splitting does not take the original feature out of the plan.
    The optimized tracks are computed on the planner's graph, which still
    holds every feature of the original sprint: each of them stays a task
    of the graph and, when the accumulated graph is acyclic with all
    dependencies present, is scheduled in a track next to its sub-features. *)
Theorem X14_split_keeps_originals (self : planner) (current_sprint : sprint) :
  planner_wf self →
  acyclic (add_features
             (add_features (dependency_graph self)
                (default [] (sp_features current_sprint)))
             (concat (expand <$> default [] (sp_features current_sprint)))) →
  closed (add_features
            (add_features (dependency_graph self)
               (default [] (sp_features current_sprint)))
            (concat (expand <$> default [] (sp_features current_sprint)))) →
  ∃ self' o,
    optimize_sprint self current_sprint = Some (self', o)
    ∧ ∀ opt, o_optimized o = Some opt →
        ∀ f, f ∈ default [] (sp_features current_sprint) →
          feature_id f ∈ dict_keys (dependency_graph self')
          ∧ ∃ tr, tr ∈ r_tracks (op_tracks opt) ∧ feature_id f ∈ t_features tr.
Proof.
  intros Hwf Hacyc Hclosed.
  destruct (optimize_sprint_spec self current_sprint Hwf) as (self1 & a & Ha & Hopt).
  destruct (Qlt_le_dec _ _) as [Hlt|Hle].
  - destruct Hopt as (self2 & a2 & levels & Ha2 & Hg2 & Hsort & Hrun).
    eexists _, _. split; [exact Hrun|]. intros opt [= <-] f Hf.
    assert (Hk : feature_id f ∈ dict_keys (dependency_graph self2)).
    { rewrite Hg2. apply add_features_keys_include. left.
      apply add_features_keys_include. right. eauto. }
    split; [done|]. cbn [op_tracks plan_of r_tracks].
    rewrite <- Hg2 in Hacyc, Hclosed.
    apply (all_tasks_scheduled (dependency_graph self2)); try done.
    rewrite Hg2. by do 2 apply add_features_NoDup.
  - eexists _, _. split; [exact Hopt|]. by intros opt [=].
Qed.

Lemma X14_split_keeps_originals_witness :
  ∃ self' o,
    optimize_sprint (__init__ 1000) split_sprint = Some (self', o)
    ∧ ∀ opt, o_optimized o = Some opt →
        ∀ f, f ∈ default [] (sp_features split_sprint) →
          feature_id f ∈ dict_keys (dependency_graph self')
          ∧ ∃ tr, tr ∈ r_tracks (op_tracks opt) ∧ feature_id f ∈ t_features tr.
Proof.
  apply (X14_split_keeps_originals (__init__ 1000) split_sprint).
  - apply NoDup_nil_2.
  - apply (ranked_acyclic (position split_order)). vm_compute. reflexivity.
  - apply closedb_closed. vm_compute. reflexivity.
Defined.

(** The optimized plan of the sprint above: the original [x] shares the
    first track with its four sub-features. *)
Example split_sprint_tracks :
  (λ res, t_features <$> r_tracks (op_tracks res))
  <$> (optimize_sprint (__init__ 1000) split_sprint ≫= λ res, o_optimized res.2)
  = Some [ Some <$> ["x"; "x_0"; "x_1"; "x_2"; "x_3"]; [Some "y"] ]%string.
Proof. vm_compute. reflexivity. Qed.

(** ** monitor_sprint_execution *)

(** X15. Without tracks (no ['tracks'] entry, or an empty one) the monitor
    reports health 0 and therefore still issues its reallocation
    suggestion, with no bottleneck to point at. *)
Theorem X15_monitor_without_tracks (status : sprint_status) :
  default [] (st_tracks status) = [] →
  m_health_score (monitor_sprint_execution status) = 0%Q
  ∧ m_bottlenecks (monitor_sprint_execution status) = []
  ∧ length (m_reallocation_suggestions (monitor_sprint_execution status)) = 1.
Proof.
  intros Hempty. unfold monitor_sprint_execution. rewrite Hempty. simpl.
  split_and!; try done.
Qed.

Lemma X15_monitor_without_tracks_witness :
  m_health_score (monitor_sprint_execution {| st_tracks := None |}) = 0%Q
  ∧ m_bottlenecks (monitor_sprint_execution {| st_tracks := None |}) = []
  ∧ length (m_reallocation_suggestions
              (monitor_sprint_execution {| st_tracks := None |})) = 1.
Proof.
  apply (X15_monitor_without_tracks {| st_tracks := None |}). reflexivity.
Defined.

Lemma monitor_loop_spec (tracks : dict string track_status) : ∀ acc b,
  b ∈ fold_left monitor_step tracks acc
  ↔ b ∈ acc
    ∨ ∃ id ts, (id, ts) ∈ tracks ∧ is_bottleneck ts
        ∧ b = {| b_track := id;
                 b_completion := completion_rate_of ts;
                 b_suggestion := "Allocate more resources to this track" |}.
Proof.
  induction tracks as [|[id ts] tracks IH]; intros acc b.
  - simpl. split; [by left|]. intros [?|(? & ? & []%elem_of_nil & _)]. done.
  - cbn [fold_left]. rewrite IH. unfold monitor_step, is_bottleneck.
    destruct (Qlt_le_dec (completion_rate_of ts) (1 # 2)) as [Hc|Hc];
      [destruct (Qlt_le_dec 10 (default 0%Q (ts_elapsed_time ts))) as [He|He]|].
    + rewrite elem_of_app, list_elem_of_singleton. split.
      * intros [[? | ->]|(id' & ts' & Hin & Hb & ->)].
        -- by left.
        -- right. exists id, ts. split; [left|]. split; [by split | done].
        -- right. exists id', ts'. split; [by right | by split].
      * intros [?|(id' & ts' & [[= -> ->]|Hin]%elem_of_cons & Hb & ->)].
        -- left. by left.
        -- left. by right.
        -- right. exists id', ts'. done.
    + split.
      * intros [?|(id' & ts' & Hin & Hb & ->)]; [by left|].
        right. exists id', ts'. split; [by right | by split].
      * intros [?|(id' & ts' & [[= -> ->]|Hin]%elem_of_cons & Hb & ->)];
          [by left | | right; by exists id', ts'].
        exfalso. destruct Hb as [_ Hb]. by apply (Qle_not_lt _ _ He).
    + split.
      * intros [?|(id' & ts' & Hin & Hb & ->)]; [by left|].
        right. exists id', ts'. split; [by right | by split].
      * intros [?|(id' & ts' & [[= -> ->]|Hin]%elem_of_cons & Hb & ->)];
          [by left | | right; by exists id', ts'].
        exfalso. destruct Hb as [Hb _]. by apply (Qle_not_lt _ _ Hc).
Qed.

(** X16. The monitor reports as bottlenecks exactly the tracks that are
    less than half complete after more than 10 seconds, a missing
    completion rate counting as 0 and a missing elapsed time as 0: a track
    without an elapsed time is never reported. *)
Theorem X16_monitor_bottlenecks (status : sprint_status) :
  (∀ b, b ∈ m_bottlenecks (monitor_sprint_execution status)
        ↔ ∃ id ts, (id, ts) ∈ default [] (st_tracks status)
            ∧ (completion_rate_of ts < 1 # 2)%Q
            ∧ (10 < default 0%Q (ts_elapsed_time ts))%Q
            ∧ b = {| b_track := id;
                     b_completion := completion_rate_of ts;
                     b_suggestion := "Allocate more resources to this track" |})
  ∧ (∀ b, b ∈ m_bottlenecks (monitor_sprint_execution status) →
          ∃ ts, (b_track b, ts) ∈ default [] (st_tracks status)
                ∧ is_Some (ts_elapsed_time ts)).
Proof.
  assert (Hchar : ∀ b, b ∈ m_bottlenecks (monitor_sprint_execution status)
        ↔ ∃ id ts, (id, ts) ∈ default [] (st_tracks status)
            ∧ (completion_rate_of ts < 1 # 2)%Q
            ∧ (10 < default 0%Q (ts_elapsed_time ts))%Q
            ∧ b = {| b_track := id;
                     b_completion := completion_rate_of ts;
                     b_suggestion := "Allocate more resources to this track" |}).
  { intros b. unfold monitor_sprint_execution. cbn [m_bottlenecks].
    rewrite monitor_loop_spec. unfold is_bottleneck. split.
    - intros [[]%elem_of_nil|(id & ts & Hin & [Hc He] & ->)]. by exists id, ts.
    - intros (id & ts & Hin & Hc & He & ->). right. by exists id, ts. }
  split; [done|]. intros b (id & ts & Hin & _ & He & ->)%Hchar.
  exists ts. split; [done|]. destruct (ts_elapsed_time ts); [by eexists|].
  simpl in He. vm_compute in He. discriminate.
Qed.

Lemma completion_sum_bounds (tracks : dict string track_status) : ∀ a,
  (∀ id ts, (id, ts) ∈ tracks →
     (0 <= completion_rate_of ts)%Q ∧ (completion_rate_of ts <= 1)%Q) →
  (a <= fold_left (λ acc item, acc + completion_rate_of item.2) tracks a)%Q
  ∧ (fold_left (λ acc item, acc + completion_rate_of item.2) tracks a
     <= a + inject_Z (Z.of_nat (length tracks)))%Q.
Proof.
  induction tracks as [|[id ts] tracks IH]; intros a Hall.
  - cbn [fold_left length]. change (inject_Z (Z.of_nat 0)) with 0%Q.
    split; [apply Qle_refl | lra].
  - cbn [fold_left]. destruct (Hall id ts) as [H0 H1]; [left|].
    destruct (IH (a + completion_rate_of ts)%Q) as [Hlo Hhi].
    { intros id' ts' Hin. apply (Hall id' ts'). by right. }
    simpl snd in *. split; [lra|].
    eapply Qle_trans; [exact Hhi|].
    change (length ((id, ts) :: tracks)) with (S (length tracks)).
    rewrite Nat2Z.inj_succ, <- Z.add_1_l, inject_Z_plus.
    change (inject_Z 1) with 1%Q. lra.
Qed.

(** X17. When every track reports a completion rate between 0 and 1, the
    health score lies between 0 and 1 as well. *)
Theorem X17_monitor_health_in_unit_interval (status : sprint_status) :
  (∀ id ts, (id, ts) ∈ default [] (st_tracks status) →
     (0 <= completion_rate_of ts)%Q ∧ (completion_rate_of ts <= 1)%Q) →
  (0 <= m_health_score (monitor_sprint_execution status))%Q
  ∧ (m_health_score (monitor_sprint_execution status) <= 1)%Q.
Proof.
  intros Hall. unfold monitor_sprint_execution. cbn [m_health_score].
  set (tracks := default [] (st_tracks status)) in *.
  destruct (completion_sum_bounds tracks 0%Q Hall) as [Hlo Hhi].
  case_decide as Hn; [|done].
  assert (Hpos : (0 < inject_Z (Z.of_nat (length tracks)))%Q).
  { change 0%Q with (inject_Z 0). rewrite <- Zlt_Qlt. lia. }
  split.
  - apply Qle_shift_div_l; [done|]. lra.
  - apply Qle_shift_div_r; [done|]. lra.
Qed.

Lemma X17_monitor_health_in_unit_interval_witness :
  (0 <= m_health_score (monitor_sprint_execution two_track_status))%Q
  ∧ (m_health_score (monitor_sprint_execution two_track_status) <= 1)%Q.
Proof.
  apply (X17_monitor_health_in_unit_interval two_track_status).
  intros id ts Hin. simpl in Hin.
  apply elem_of_cons in Hin as [[= -> ->]|Hin]; [by vm_compute|].
  apply list_elem_of_singleton in Hin as [= -> ->]. by vm_compute.
Defined.

Example two_track_monitoring :
  (b_track <$> m_bottlenecks (monitor_sprint_execution two_track_status),
   m_health_score (monitor_sprint_execution two_track_status),
   length (m_reallocation_suggestions (monitor_sprint_execution two_track_status)))
  = (["track_seq_0"%string], (5 # 8)%Q, 1).
Proof. vm_compute. reflexivity. Qed.

(** ** Duplicate ids *)

Lemma add_features_get_other features : ∀ g k,
  (∀ f, f ∈ features → feature_id f ≠ k) →
  dict_get (add_features g features) k = dict_get g k.
Proof.
  induction features as [|f features IH]; intros g k Hne; [done|].
  cbn [add_features fold_left]. fold (add_features (dict_set (feature_id f) (graph_entry f) g) features).
  rewrite IH by (intros; apply Hne; by right).
  rewrite dict_get_set, decide_False; [done|]. apply Hne. left.
Qed.

(** X18. When several submitted features share an id, the last one wins:
    after the analysis the graph holds, under that id, the entry of the
    last feature submitted with it (with the defaults filled in), although
    every one of them was counted in [total_features]. *)
Theorem X18_last_duplicate_wins (self : planner)
    (before after : list feature) (f : feature) :
  (∀ f', f' ∈ after → feature_id f' ≠ feature_id f) →
  ∃ self' a,
    analyze_features self (before ++ f :: after) = Some (self', a)
    ∧ dict_get (dependency_graph self') (feature_id f) = Some (graph_entry f)
    ∧ total_features a = length before + 1 + length after.
Proof.
  intros Hlast.
  destruct (analyze_features_spec self (before ++ f :: after)) as (cp & _ & Ha).
  eexists _, _. split; [exact Ha|]. simpl. split.
  - rewrite add_features_app. cbn [add_features fold_left].
    fold (add_features
            (dict_set (feature_id f) (graph_entry f)
               (add_features (dependency_graph self) before)) after).
    rewrite add_features_get_other by done.
    rewrite dict_get_set. by rewrite decide_True.
  - rewrite length_app. simpl. lia.
Qed.

Lemma X18_last_duplicate_wins_witness :
  ∃ self' a,
    analyze_features (__init__ 1000)
      ([task "a" ["b"%string]] ++ task "a" [] :: [task "b" []])
    = Some (self', a)
    ∧ dict_get (dependency_graph self') (feature_id (task "a" []))
      = Some (graph_entry (task "a" []))
    ∧ total_features a
      = length [task "a" ["b"%string]] + 1 + length [task "b" []].
Proof.
  apply (X18_last_duplicate_wins (__init__ 1000)
           [task "a" ["b"%string]] [task "b" []] (task "a" [])).
  intros f' Hf'. apply list_elem_of_singleton in Hf' as ->. by vm_compute.
Defined.

(** ** As many tracks as the critical path is long *)

Lemma chain_below_level g levels :
  levels_ordered g levels →
  ∀ c t i, head c = Some t → is_chain g c → at_level levels t i →
    length c ≤ S i.
Proof.
  intros Hord. induction c as [|a c IH]; intros t i Hhead Hchain Hat; [done|].
  simpl in Hhead. simplify_eq. destruct c as [|b c]; [simpl; lia|].
  destruct Hchain as [Hab Hchain]. destruct Hat as (l & Hl & Ht).
  destruct (Hord i l t b Hl Ht Hab) as (j & l' & Hj & Hl' & Hb).
  assert (length (b :: c) ≤ S j); [|simpl in *; lia].
  apply (IH b j); [done | done | by exists l'].
Qed.

Lemma chain_down_levels g levels :
  (∀ i l t, levels !! S i = Some l → t ∈ l →
     ∃ d l', edge g t d ∧ levels !! i = Some l' ∧ d ∈ l') →
  ∀ i t, at_level levels t i →
    ∃ c, head c = Some t ∧ is_chain g c ∧ length c = S i.
Proof.
  intros Htight. induction i as [|i IH]; intros t (l & Hl & Ht).
  - by exists [t].
  - destruct (Htight i l t Hl Ht) as (d & l' & He & Hl' & Hd).
    destruct (IH d) as (c & Hhead & Hchain & Hlen); [by exists l'|].
    exists (t :: c). split_and!; [done | | simpl; lia].
    destruct c as [|b c]; [done|]. simpl in Hhead. simplify_eq. by split.
Qed.

Lemma levels_match_critical_path g levels cp :
  NoDup (dict_keys g) → acyclic g → closed g →
  _topological_sort g = Some levels →
  _find_critical_path g = Some cp →
  length levels = length cp.
Proof.
  intros Hnd Hacyc Hclosed Hsort Hcp.
  destruct (topological_sort_spec g Hnd)
    as (levels' & Hsort' & Hord & _ & Hsub & Hready).
  rewrite Hsort in Hsort'. injection Hsort' as <-.
  destruct (topological_sort_tight g levels Hnd Hsort) as (Hne & _ & Htight).
  destruct (find_critical_path_longest g cp Hacyc Hcp) as [[Hchain Hhead] Hmax].
  apply Nat.le_antisymm.
  - destruct (decide (levels = [])) as [->|Hnil]; [simpl; lia|].
    destruct (last levels) as [l|] eqn:Hlast;
      [|by apply last_None in Hlast].
    rewrite last_lookup in Hlast.
    assert (Hl : l ≠ []).
    { rewrite Forall_forall in Hne. apply Hne.
      by eapply list_elem_of_lookup_2. }
    destruct l as [|t l]; [done|].
    destruct (chain_down_levels g levels Htight (pred (length levels)) t)
      as (c & Hc1 & Hc2 & Hlen).
    { exists (t :: l). split; [done | left]. }
    assert (length c ≤ length cp).
    { apply Hmax. split; [done|]. intros x Hx. rewrite Hc1 in Hx. simplify_eq.
      apply Hsub, elem_of_concat_lookup. exists (pred (length levels)), (x :: l).
      split; [done | left]. }
    destruct levels; [done|]. simpl in *. lia.
  - destruct cp as [|t cp]; [simpl; lia|].
    assert (Ht : t ∈ dict_keys g) by (by apply Hhead).
    pose proof (acyclic_all_finished g (concat levels) Hacyc Hclosed Hready t Ht)
      as Hin.
    apply elem_of_concat_lookup in Hin as (i & l & Hl & Htl).
    pose proof (chain_below_level g levels Hord (t :: cp) t i eq_refl Hchain
                  ltac:(by exists l)) as Hle.
    apply lookup_lt_Some in Hl. lia.
Qed.

(** X19. On an acyclic task set in which every referenced dependency
    exists, the plan has exactly as many tracks as the critical path has
    tasks. *)
Theorem X19_tracks_match_critical_path (self : planner) (features : list feature) :
  planner_wf self →
  acyclic (add_features (dependency_graph self) features) →
  closed (add_features (dependency_graph self) features) →
  ∃ self' r,
    create_parallel_tracks self features = Some (self', r)
    ∧ length (r_tracks r) = length (critical_path (r_analysis r)).
Proof.
  intros Hwf Hacyc Hclosed.
  destruct (create_parallel_tracks_spec self features Hwf)
    as (self' & a & levels & Ha & Hg & Hsort & Hrun).
  exists self', (plan_of self' a levels). split; [done|].
  cbn [plan_of r_tracks r_analysis]. unfold _group_into_tracks.
  rewrite length_imap. rewrite <- Hg in Hacyc, Hclosed.
  apply (levels_match_critical_path (dependency_graph self')); try done.
  - by eapply analyze_features_wf.
  - by eapply run_critical_path.
Qed.

Lemma X19_tracks_match_critical_path_witness :
  ∃ self' r,
    create_parallel_tracks (__init__ 1000) sample_features = Some (self', r)
    ∧ length (r_tracks r) = length (critical_path (r_analysis r)).
Proof.
  apply (X19_tracks_match_critical_path (__init__ 1000) sample_features).
  - apply NoDup_nil_2.
  - apply (ranked_acyclic (position sample_order)). vm_compute. reflexivity.
  - apply closedb_closed. vm_compute. reflexivity.
Defined.
